(** * FileWatcher: the file-watch coordination engine of KeePassXC

    A shallow embedding of [src/core/FileWatcher.cpp]: the per-path watch
    [FileWatcherPrivate], the registry [FileWatcher] that multiplexes the
    watches, and the control-thread event loop that drives both.

    Layout:
    - [Sha256]      the digest computed by [QCryptographicHash::Sha256];
    - [Qt]          the Qt objects the code holds ([QTimer], [QFile],
                    [QFileSystemWatcher]), written as plain data;
    - [Watch]       class [FileWatcherPrivate], one function per method;
    - [Registry]    class [FileWatcher], one function per method;
    - [Loop]        the control thread: one step per delivered event;
    - [PerPath]     the effect of an event on the watch of one path;
    - [Invariant]   the predicates the proofs carry along runs;
    - [Scenario]    concrete files and runs;
    - [Frame]       which events reach which watch;
    - [Attachments] class [EntryAttachments], the attachments of an entry
                    and the temporary files opened for them;
    - the theorems. *)

From Stdlib Require Import ZArith Lia.
From Stdlib Require Import Strings.Byte.
From stdpp Require Import base decidable option list strings gmap fin_maps.

Local Open Scope Z_scope.
#[local] Set Warnings "-clear-no-such-hyp".

(** A [QByteArray] is a sequence of bytes; [QString] paths are strings. *)
Abbreviation QByteArray := (list byte).
Abbreviation QString := string.

#[global] Instance byte_eq_decision : EqDecision byte := Byte.byte_eq_dec.

(** The C++ [int] is 32 bits wide; arithmetic on it wraps around. *)
Definition wrap32 (z : Z) : Z := (z + 2 ^ 31) mod 2 ^ 32 - 2 ^ 31.

(* ================================================================== *)
(** ** SHA-256 (FIPS 180-4), as computed by [QCryptographicHash] *)
(* ================================================================== *)

Module Sha256.

Definition mask32 : Z := 0xffffffff.
Definition trunc32 (z : Z) : Z := Z.land z mask32.
Definition plus32 (a b : Z) : Z := trunc32 (a + b).

Definition rotr (n x : Z) : Z :=
  Z.lor (Z.shiftr x n) (trunc32 (Z.shiftl x (32 - n))).

Definition Ch (x y z : Z) : Z :=
  Z.lxor (Z.land x y) (Z.land (Z.lxor x mask32) z).
Definition Maj (x y z : Z) : Z :=
  Z.lxor (Z.lxor (Z.land x y) (Z.land x z)) (Z.land y z).
Definition bigSigma0 (x : Z) : Z :=
  Z.lxor (Z.lxor (rotr 2 x) (rotr 13 x)) (rotr 22 x).
Definition bigSigma1 (x : Z) : Z :=
  Z.lxor (Z.lxor (rotr 6 x) (rotr 11 x)) (rotr 25 x).
Definition smallSigma0 (x : Z) : Z :=
  Z.lxor (Z.lxor (rotr 7 x) (rotr 18 x)) (Z.shiftr x 3).
Definition smallSigma1 (x : Z) : Z :=
  Z.lxor (Z.lxor (rotr 17 x) (rotr 19 x)) (Z.shiftr x 10).

(** The constants are not chosen: FIPS 180-4 takes the first 32 bits of
    the fractional parts of the cube roots (for the rounds) and of the
    square roots (for the initial hash) of the first primes. *)
Definition isPrime (n : Z) : bool :=
  forallb (fun d => negb (n mod d =? 0)) (Z.of_nat <$> seq 2 (Z.to_nat n - 2)).

Definition firstPrimes : list Z :=
  List.filter isPrime (Z.of_nat <$> seq 2 310).

(** The integer cube root, one bit at a time from the top. *)
Fixpoint cubeRoot (bits : nat) (n root : Z) : Z :=
  match bits with
  | O => root
  | S bits' =>
      let next := root + 2 ^ Z.of_nat bits' in
      cubeRoot bits' n (if next * next * next <=? n then next else root)
  end.

Definition roundConstants : list Z :=
  Eval vm_compute in
    (fun p => trunc32 (cubeRoot 36 (p * 2 ^ 96) 0)) <$> firstPrimes.

Definition initialHash : list Z :=
  Eval vm_compute in
    (fun p => trunc32 (Z.sqrt (p * 2 ^ 64))) <$> take 8 firstPrimes.

Definition byteToZ (b : byte) : Z := Z.of_N (Byte.to_N b).
Definition byteOfZ (z : Z) : byte :=
  default x00 (Byte.of_N (Z.to_N (Z.land z 0xff))).

(** Big-endian encodings. *)
Definition wordBytes (w : Z) : list byte :=
  [ byteOfZ (Z.shiftr w 24); byteOfZ (Z.shiftr w 16);
    byteOfZ (Z.shiftr w 8); byteOfZ w ].
Definition lengthBytes (bits : Z) : list byte :=
  wordBytes (Z.shiftr bits 32) ++ wordBytes bits.
Definition wordOfBytes (bs : list byte) : Z :=
  foldl (fun acc b => Z.lor (Z.shiftl acc 8) (byteToZ b)) 0 bs.

(** Padding: a one bit, zeros up to 56 mod 64 bytes, the bit length. *)
Definition padding (len : Z) : list byte :=
  x80 :: replicate (Z.to_nat ((55 - len) mod 64)) x00 ++ lengthBytes (8 * len).

Fixpoint chunks {A} (count size : nat) (l : list A) : list (list A) :=
  match count with
  | O => []
  | S count' => take size l :: chunks count' size (drop size l)
  end.

Definition blockWords (block : list byte) : list Z :=
  wordOfBytes <$> chunks 16 4 block.

(** The message schedule: 48 more words from a sliding window of 16. *)
Fixpoint schedule (n : nat) (window : list Z) : list Z :=
  match n with
  | O => []
  | S n' =>
      let at_ i := default 0 (window !! i) in
      let w := plus32 (plus32 (smallSigma1 (at_ 14%nat)) (at_ 9%nat))
                      (plus32 (smallSigma0 (at_ 1%nat)) (at_ 0%nat)) in
      w :: schedule n' (drop 1 window ++ [w])
  end.

Definition round (st : list Z) (kw : Z * Z) : list Z :=
  match st with
  | [a; b; c; d; e; f; g; h] =>
      let t1 := plus32 (plus32 (plus32 h (bigSigma1 e)) (Ch e f g))
                       (plus32 (fst kw) (snd kw)) in
      let t2 := plus32 (bigSigma0 a) (Maj a b c) in
      [plus32 t1 t2; a; b; c; plus32 d t1; e; f; g]
  | _ => st
  end.

Definition compress (hash : list Z) (block : list byte) : list Z :=
  let w16 := blockWords block in
  let w := w16 ++ schedule 48 w16 in
  zip_with plus32 hash (foldl round hash (zip roundConstants w)).

Definition digest (msg : list byte) : list byte :=
  let padded := msg ++ padding (Z.of_nat (length msg)) in
  let blocks := chunks (length padded / 64) 64 padded in
  foldl compress initialHash blocks ≫= wordBytes.

End Sha256.

Arguments Sha256.digest : simpl never.

(** Bytes as numbers, to write digests down. *)
Definition hexOf (bs : list byte) : list Z := Sha256.byteToZ <$> bs.

(* ================================================================== *)
(** ** The Qt objects the watcher is built from *)
(* ================================================================== *)

(** The files that can currently be opened read-only, with their contents.
    A file that does not exist, or that the process is not allowed to read,
    has no entry. *)
Abbreviation FileSystem := (gmap string (list byte)).

Module Qt.

(** [QTimer]: whether it is running, its interval in milliseconds, and
    whether it stops itself after firing once. *)
Record QTimer := mkQTimer {
  isActive : bool;
  interval : Z;
  isSingleShot : bool
}.

Definition newTimer : QTimer :=
  {| isActive := false; interval := 0; isSingleShot := false |}.

Definition setSingleShot (b : bool) (t : QTimer) : QTimer :=
  {| isActive := isActive t; interval := interval t; isSingleShot := b |}.

(** [QTimer::start(msec)] (re)starts the timer, also when it is running. *)
Definition startTimer (msec : Z) (t : QTimer) : QTimer :=
  {| isActive := true; interval := msec; isSingleShot := isSingleShot t |}.

Definition stopTimer (t : QTimer) : QTimer :=
  {| isActive := false; interval := interval t; isSingleShot := isSingleShot t |}.

(** The timer after its [timeout()] was emitted. *)
Definition fired (t : QTimer) : QTimer :=
  if isSingleShot t then stopTimer t else t.

(** [QFile(name).open(QFile::ReadOnly)]: the contents on success. A [QFile]
    without a file name cannot be opened. *)
Definition openReadOnly (fs : FileSystem) (name : string) : option (list byte) :=
  if decide (name = "") then None else fs !! name.

(** [QIODevice::read(maxSize)]: at most [maxSize] bytes from the start. *)
Definition read (maxSize : Z) (content : list byte) : list byte :=
  take (Z.to_nat maxSize) content.

(** [QFileSystemWatcher]: the set of files the OS backend is subscribed to. *)
Record QFileSystemWatcher := mkQFileSystemWatcher {
  files : gset string
}.

Definition newFileSystemWatcher : QFileSystemWatcher := {| files := ∅ |}.

(** [QFileSystemWatcher::addPath]: the path is added when it exists and is
    not monitored yet; the result tells whether it was added. *)
Definition addPath (fs : FileSystem) (path : string) (q : QFileSystemWatcher)
  : QFileSystemWatcher * bool :=
  if bool_decide (path ≠ "" ∧ path ∈ dom fs ∧ path ∉ files q)
  then ({| files := {[path]} ∪ files q |}, true)
  else (q, false).

Definition removePath (path : string) (q : QFileSystemWatcher)
  : QFileSystemWatcher * bool :=
  if bool_decide (path ∈ files q)
  then ({| files := files q ∖ {[path]} |}, true)
  else (q, false).

End Qt.

(* ================================================================== *)
(** ** The asynchronous execution boundary *)
(* ================================================================== *)

(** Modelled from the spec: [AsyncTask::runThenCallback(task, context,
    callback)] of [core/AsyncTask.h], whose source is not part of this
    development. The spec gives its contract: the computation is submitted
    to run off the control thread, and its result is delivered later as a
    task scheduled on the control thread; there is no cancellation. A
    submitted task is therefore first [Running] and then, once the worker
    has produced the digest, [Finished] until the control thread runs the
    callback. The callback belongs to the context object and is not run
    when that object is gone. *)
Inductive AsyncTask :=
| Running
| Finished (checksum : list byte).

#[global] Instance AsyncTask_eq_decision : EqDecision AsyncTask.
Proof. solve_decision. Defined.

(** The signal both classes declare. *)
Inductive Signal :=
| fileChanged (path : string).

#[global] Instance Signal_eq_decision : EqDecision Signal.
Proof. solve_decision. Defined.

(* ================================================================== *)
(** ** class FileWatcherPrivate: the per-path watch *)
(* ================================================================== *)

Module Watch.
Import Qt.

(** The members of the class, under their names, and the asynchronous
    tasks submitted with this object as their context. *)
Record FileWatcherPrivate := mkFileWatcherPrivate {
  m_filePath : string;
  m_fileChecksum : list byte;
  m_fileChangeDelayTimer : QTimer;
  m_fileIgnoreDelayTimer : QTimer;
  m_fileChecksumTimer : QTimer;
  m_fileChecksumSizeBytes : Z;
  m_ignoreFileChange : bool;
  asyncTasks : list AsyncTask
}.

Definition set_filePath (v : string) (w : FileWatcherPrivate) :=
  mkFileWatcherPrivate v (m_fileChecksum w) (m_fileChangeDelayTimer w)
    (m_fileIgnoreDelayTimer w) (m_fileChecksumTimer w)
    (m_fileChecksumSizeBytes w) (m_ignoreFileChange w) (asyncTasks w).
Definition set_fileChecksum (v : list byte) (w : FileWatcherPrivate) :=
  mkFileWatcherPrivate (m_filePath w) v (m_fileChangeDelayTimer w)
    (m_fileIgnoreDelayTimer w) (m_fileChecksumTimer w)
    (m_fileChecksumSizeBytes w) (m_ignoreFileChange w) (asyncTasks w).
Definition set_fileChangeDelayTimer (v : QTimer) (w : FileWatcherPrivate) :=
  mkFileWatcherPrivate (m_filePath w) (m_fileChecksum w) v
    (m_fileIgnoreDelayTimer w) (m_fileChecksumTimer w)
    (m_fileChecksumSizeBytes w) (m_ignoreFileChange w) (asyncTasks w).
Definition set_fileIgnoreDelayTimer (v : QTimer) (w : FileWatcherPrivate) :=
  mkFileWatcherPrivate (m_filePath w) (m_fileChecksum w)
    (m_fileChangeDelayTimer w) v (m_fileChecksumTimer w)
    (m_fileChecksumSizeBytes w) (m_ignoreFileChange w) (asyncTasks w).
Definition set_fileChecksumTimer (v : QTimer) (w : FileWatcherPrivate) :=
  mkFileWatcherPrivate (m_filePath w) (m_fileChecksum w)
    (m_fileChangeDelayTimer w) (m_fileIgnoreDelayTimer w) v
    (m_fileChecksumSizeBytes w) (m_ignoreFileChange w) (asyncTasks w).
Definition set_fileChecksumSizeBytes (v : Z) (w : FileWatcherPrivate) :=
  mkFileWatcherPrivate (m_filePath w) (m_fileChecksum w)
    (m_fileChangeDelayTimer w) (m_fileIgnoreDelayTimer w)
    (m_fileChecksumTimer w) v (m_ignoreFileChange w) (asyncTasks w).
Definition set_ignoreFileChange (v : bool) (w : FileWatcherPrivate) :=
  mkFileWatcherPrivate (m_filePath w) (m_fileChecksum w)
    (m_fileChangeDelayTimer w) (m_fileIgnoreDelayTimer w)
    (m_fileChecksumTimer w) (m_fileChecksumSizeBytes w) v (asyncTasks w).
Definition set_asyncTasks (v : list AsyncTask) (w : FileWatcherPrivate) :=
  mkFileWatcherPrivate (m_filePath w) (m_fileChecksum w)
    (m_fileChangeDelayTimer w) (m_fileIgnoreDelayTimer w)
    (m_fileChecksumTimer w) (m_fileChecksumSizeBytes w)
    (m_ignoreFileChange w) v.

(** The constructor: the member initialisers ([m_fileChecksumSizeBytes = -1],
    [m_ignoreFileChange = false]) and the two single-shot timers. *)
Definition new : FileWatcherPrivate :=
  {| m_filePath := "";
     m_fileChecksum := [];
     m_fileChangeDelayTimer := setSingleShot true newTimer;
     m_fileIgnoreDelayTimer := setSingleShot true newTimer;
     m_fileChecksumTimer := newTimer;
     m_fileChecksumSizeBytes := -1;
     m_ignoreFileChange := false;
     asyncTasks := [] |}.

(** [calculateChecksum]: the digest of the first [m_fileChecksumSizeBytes]
    bytes when that is positive, of the whole file otherwise; the last
    known checksum when the file cannot be opened. *)
Definition calculateChecksum (fs : FileSystem) (w : FileWatcherPrivate) : list byte :=
  match openReadOnly fs (m_filePath w) with
  | Some content =>
      if 0 <? m_fileChecksumSizeBytes w
      then Sha256.digest (read (m_fileChecksumSizeBytes w) content)
      else Sha256.digest content
  | None => m_fileChecksum w
  end.

Definition stop (w : FileWatcherPrivate) : FileWatcherPrivate :=
  let w := set_filePath "" w in
  let w := set_fileChecksum [] w in
  let w := set_fileChecksumTimer (stopTimer (m_fileChecksumTimer w)) w in
  set_fileChangeDelayTimer (stopTimer (m_fileChangeDelayTimer w)) w.

(** [start]. Both arguments are C++ [int]s and so are the two products.
    The block under [Q_OS_LINUX], which only names the polling engine of the
    OS backend, does not touch the members and is left out. *)
Definition start (fs : FileSystem) (path : string)
    (checksumIntervalSeconds checksumSizeKibibytes : Z)
    (w : FileWatcherPrivate) : FileWatcherPrivate :=
  let w := stop w in
  let w := set_filePath path w in
  let w := set_fileChecksumSizeBytes (wrap32 (checksumSizeKibibytes * 1024)) w in
  let w := set_fileChecksum (calculateChecksum fs w) w in
  let w := if 0 <? checksumIntervalSeconds
           then set_fileChecksumTimer
                  (startTimer (wrap32 (checksumIntervalSeconds * 1000))
                     (m_fileChecksumTimer w)) w
           else w in
  set_ignoreFileChange false w.

Definition hasSameFileChecksum (fs : FileSystem) (w : FileWatcherPrivate) : bool :=
  bool_decide (calculateChecksum fs w = m_fileChecksum w).

Definition pause (w : FileWatcherPrivate) : FileWatcherPrivate :=
  let w := set_ignoreFileChange true w in
  set_fileChangeDelayTimer (stopTimer (m_fileChangeDelayTimer w)) w.

Definition resume (w : FileWatcherPrivate) : FileWatcherPrivate :=
  let w := set_ignoreFileChange false w in
  if negb (isActive (m_fileIgnoreDelayTimer w))
  then set_fileIgnoreDelayTimer (startTimer 0 (m_fileIgnoreDelayTimer w)) w
  else w.

Definition shouldIgnoreChanges (w : FileWatcherPrivate) : bool :=
  bool_decide (m_filePath w = "")
  || m_ignoreFileChange w
  || isActive (m_fileIgnoreDelayTimer w)
  || isActive (m_fileChangeDelayTimer w).

(** [checkFileChanged], up to the submission of the task. *)
Definition checkFileChanged (w : FileWatcherPrivate) : FileWatcherPrivate :=
  if shouldIgnoreChanges w then w
  else
    let w := set_ignoreFileChange true w in
    set_asyncTasks (asyncTasks w ++ [Running]) w.

(** The callback passed to [runThenCallback], run on the control thread
    with the digest the task returned. *)
Definition checksumCallback (checksum : list byte) (w : FileWatcherPrivate)
  : FileWatcherPrivate :=
  let w := if bool_decide (checksum ≠ m_fileChecksum w)
           then
             let w := set_fileChecksum checksum w in
             set_fileChangeDelayTimer (startTimer 0 (m_fileChangeDelayTimer w)) w
           else w in
  set_ignoreFileChange false w.

(** The slot connected to [m_fileChangeDelayTimer]'s [timeout()]:
    [emit fileChanged(m_filePath)]. *)
Definition fileChangeDelayTimeout (w : FileWatcherPrivate)
  : FileWatcherPrivate * list Signal :=
  (set_fileChangeDelayTimer (fired (m_fileChangeDelayTimer w)) w,
   [fileChanged (m_filePath w)]).

(** [m_fileIgnoreDelayTimer] has no slot: it just runs out. *)
Definition fileIgnoreDelayTimeout (w : FileWatcherPrivate) : FileWatcherPrivate :=
  set_fileIgnoreDelayTimer (fired (m_fileIgnoreDelayTimer w)) w.

(** [m_fileChecksumTimer]'s [timeout()] is connected to [checkFileChanged]. *)
Definition fileChecksumTimeout (w : FileWatcherPrivate) : FileWatcherPrivate :=
  checkFileChanged (set_fileChecksumTimer (fired (m_fileChecksumTimer w)) w).

End Watch.

(* ================================================================== *)
(** ** class FileWatcher: the registry of watches *)
(* ================================================================== *)

Module Registry.
Import Watch.

(** [m_watches] maps a path to the watch it owns (nothing else holds the
    shared pointer); [m_fileWatcher] is the OS backend. *)
Record FileWatcher := mkFileWatcher {
  m_watches : gmap string FileWatcherPrivate;
  m_fileWatcher : Qt.QFileSystemWatcher
}.

Definition new : FileWatcher :=
  {| m_watches := ∅; m_fileWatcher := Qt.newFileSystemWatcher |}.

(** [addPath] returns [void]; the [bool] of [m_fileWatcher.addPath] is
    dropped. *)
Definition addPath (fs : FileSystem) (path : string)
    (checksumIntervalSeconds checksumSizeKibibytes : Z)
    (fw : FileWatcher) : FileWatcher :=
  let fw :=
    match m_watches fw !! path with
    | None =>
        {| m_watches := <[path := Watch.new]> (m_watches fw);
           m_fileWatcher := fst (Qt.addPath fs path (m_fileWatcher fw)) |}
    | Some _ => fw
    end in
  {| m_watches :=
       alter (start fs path checksumIntervalSeconds checksumSizeKibibytes)
         path (m_watches fw);
     m_fileWatcher := m_fileWatcher fw |}.

Definition removePath (path : string) (fw : FileWatcher) : FileWatcher :=
  match m_watches fw !! path with
  | Some _ =>
      {| m_watches := delete path (m_watches fw);
         m_fileWatcher := fst (Qt.removePath path (m_fileWatcher fw)) |}
  | None => fw
  end.

Definition removeAllPaths (fw : FileWatcher) : FileWatcher :=
  foldl (fun fw path => removePath path fw) fw (elements (dom (m_watches fw))).

Definition checkFileChanged (path : string) (fw : FileWatcher) : FileWatcher :=
  match m_watches fw !! path with
  | Some w =>
      {| m_watches := <[path := Watch.checkFileChanged w]> (m_watches fw);
         m_fileWatcher := m_fileWatcher fw |}
  | None => fw
  end.

Definition hasSameFileChecksum (fs : FileSystem) (path : string)
    (fw : FileWatcher) : bool :=
  match m_watches fw !! path with
  | Some w => Watch.hasSameFileChecksum fs w
  | None => false
  end.

Definition pause (fw : FileWatcher) : FileWatcher :=
  {| m_watches := Watch.pause <$> m_watches fw;
     m_fileWatcher := m_fileWatcher fw |}.

Definition resume (fw : FileWatcher) : FileWatcher :=
  {| m_watches := Watch.resume <$> m_watches fw;
     m_fileWatcher := m_fileWatcher fw |}.

(** Replace the watch stored under [path]. *)
Definition update (path : string) (w : FileWatcherPrivate) (fw : FileWatcher)
  : FileWatcher :=
  {| m_watches := <[path := w]> (m_watches fw);
     m_fileWatcher := m_fileWatcher fw |}.

End Registry.

(* ================================================================== *)
(** ** The control thread *)
(* ================================================================== *)

Module Loop.
Import Qt Watch Registry.

(** Everything the control thread can be handed: a call of the public
    interface, a signal of the OS backend, a timer running out, the
    callback of a finished task. A task finishing on its worker thread and
    the outside world writing files are steps of their own. *)
Inductive Event :=
| CallAddPath (path : string) (checksumIntervalSeconds checksumSizeKibibytes : Z)
| CallRemovePath (path : string)
| CallRemoveAllPaths
| CallPause
| CallResume
| OsFileChanged (path : string)
| ChecksumTimeout (path : string)
| ChangeDelayTimeout (path : string)
| IgnoreDelayTimeout (path : string)
| TaskFinishes (path : string) (task : nat)
| TaskCallback (path : string) (task : nat)
| FileWritten (path : string) (content : list byte)
| FileRemoved (path : string).

Record World := mkWorld {
  disk : FileSystem;
  watcher : FileWatcher
}.

Definition initial : World := {| disk := ∅; watcher := Registry.new |}.

(** The watch under [path], provided [enabled] holds of it. *)
Definition watchWhen (enabled : FileWatcherPrivate -> bool) (path : string)
    (s : World) : option FileWatcherPrivate :=
  w ← m_watches (watcher s) !! path;
  if enabled w then Some w else None.

Definition silently (s : World) (fw : FileWatcher) : option (World * list Signal) :=
  Some ({| disk := disk s; watcher := fw |}, []).

(** One step; [None] when the event cannot happen in this state (a timer
    that is not running, a task that does not exist). Signals of the OS
    backend can arrive for any path at any time. *)
Definition step (s : World) (e : Event) : option (World * list Signal) :=
  match e with
  | CallAddPath path secs kib =>
      silently s (Registry.addPath (disk s) path secs kib (watcher s))
  | CallRemovePath path => silently s (Registry.removePath path (watcher s))
  | CallRemoveAllPaths => silently s (Registry.removeAllPaths (watcher s))
  | CallPause => silently s (Registry.pause (watcher s))
  | CallResume => silently s (Registry.resume (watcher s))
  | OsFileChanged path =>
      silently s (Registry.checkFileChanged path (watcher s))
  | ChecksumTimeout path =>
      w ← watchWhen (fun w => isActive (m_fileChecksumTimer w)) path s;
      silently s (update path (fileChecksumTimeout w) (watcher s))
  | ChangeDelayTimeout path =>
      w ← watchWhen (fun w => isActive (m_fileChangeDelayTimer w)) path s;
      let '(w', out) := fileChangeDelayTimeout w in
      Some ({| disk := disk s; watcher := update path w' (watcher s) |}, out)
  | IgnoreDelayTimeout path =>
      w ← watchWhen (fun w => isActive (m_fileIgnoreDelayTimer w)) path s;
      silently s (update path (fileIgnoreDelayTimeout w) (watcher s))
  | TaskFinishes path task =>
      w ← m_watches (watcher s) !! path;
      match asyncTasks w !! task with
      | Some Running =>
          let done := Finished (calculateChecksum (disk s) w) in
          silently s
            (update path (set_asyncTasks (<[task := done]> (asyncTasks w)) w)
               (watcher s))
      | _ => None
      end
  | TaskCallback path task =>
      w ← m_watches (watcher s) !! path;
      match asyncTasks w !! task with
      | Some (Finished checksum) =>
          let w := set_asyncTasks (delete task (asyncTasks w)) w in
          silently s (update path (checksumCallback checksum w) (watcher s))
      | _ => None
      end
  | FileWritten path content =>
      Some ({| disk := <[path := content]> (disk s); watcher := watcher s |}, [])
  | FileRemoved path =>
      Some ({| disk := delete path (disk s); watcher := watcher s |}, [])
  end.

(** A run of the loop: the final state and every signal emitted, in order. *)
Fixpoint run (s : World) (events : list Event) : option (World * list Signal) :=
  match events with
  | [] => Some (s, [])
  | e :: events' =>
      '(s', out) ← step s e;
      '(s'', out') ← run s' events';
      Some (s'', out ++ out')
  end.

Definition reachable (s : World) : Prop :=
  ∃ events out, run initial events = Some (s, out).

(** The state with the watch of [path] replaced. *)
Definition withWatch (path : string) (w : FileWatcherPrivate) (s : World) : World :=
  {| disk := disk s; watcher := update path w (watcher s) |}.

(** The number of checksum computations outstanding for [path]. *)
Definition inFlight (path : string) (s : World) : nat :=
  match m_watches (watcher s) !! path with
  | Some w => length (asyncTasks w)
  | None => 0
  end.

End Loop.

(* ================================================================== *)
(** ** One path at a time *)
(* ================================================================== *)

Module PerPath.
Import Qt Registry Watch Loop.

(** What an event does to the watch of [path] ([None]: the path is not
    tracked), read off the methods the event calls. *)
Definition onWatch (fs : FileSystem) (e : Event) (path : string)
    (watch : option FileWatcherPrivate) : option FileWatcherPrivate :=
  let at_ (p : string) (method : FileWatcherPrivate → FileWatcherPrivate) :=
    if decide (p = path) then method <$> watch else watch in
  match e with
  | CallAddPath p secs kib =>
      if decide (p = path)
      then Some (start fs p secs kib (default Watch.new watch))
      else watch
  | CallRemovePath p => if decide (p = path) then None else watch
  | CallRemoveAllPaths => None
  | CallPause => pause <$> watch
  | CallResume => resume <$> watch
  | OsFileChanged p => at_ p checkFileChanged
  | ChecksumTimeout p => at_ p fileChecksumTimeout
  | ChangeDelayTimeout p => at_ p (λ w, fst (fileChangeDelayTimeout w))
  | IgnoreDelayTimeout p => at_ p fileIgnoreDelayTimeout
  | TaskFinishes p task =>
      at_ p (λ w, set_asyncTasks
                    (<[task := Finished (calculateChecksum fs w)]> (asyncTasks w)) w)
  | TaskCallback p task =>
      at_ p (λ w, match asyncTasks w !! task with
                  | Some (Finished checksum) =>
                      checksumCallback checksum
                        (set_asyncTasks (delete task (asyncTasks w)) w)
                  | _ => w
                  end)
  | FileWritten _ _ | FileRemoved _ => watch
  end.

End PerPath.

(* ================================================================== *)
(** ** What the registry keeps true of its watches *)
(* ================================================================== *)

Module Invariant.
Import Qt Watch Registry Loop.

(** The timers are as the constructor set them up: debounce and
    ignore-window timer single-shot, the checksum timer periodic. *)
Definition timersAsConstructed (w : FileWatcherPrivate) : Prop :=
  isSingleShot (m_fileChangeDelayTimer w) = true
  ∧ isSingleShot (m_fileIgnoreDelayTimer w) = true
  ∧ isSingleShot (m_fileChecksumTimer w) = false.

(** A watch stored under [key] watches [key]. *)
Definition wellFormed (key : string) (w : FileWatcherPrivate) : Prop :=
  m_filePath w = key ∧ timersAsConstructed w.

Definition consistent (fw : FileWatcher) : Prop :=
  ∀ key w, m_watches fw !! key = Some w → wellFormed key w.

(** The OS backend is subscribed to tracked paths only. *)
Definition subscriptionsTracked (fw : FileWatcher) : Prop :=
  files (m_fileWatcher fw) ⊆ dom (m_watches fw).

(** Events that take [path] out of the registry. *)
Definition removes (path : string) (e : Event) : Prop :=
  e = CallRemovePath path ∨ e = CallRemoveAllPaths.

(** The reentrancy guard at work: at most one task, and
    [m_ignoreFileChange] set while it is outstanding. *)
Definition guarded (w : FileWatcherPrivate) : Prop :=
  asyncTasks w = []
  ∨ (length (asyncTasks w) = 1%nat ∧ m_ignoreFileChange w = true).

(** Nothing can come out of the watch: events are gated by the flag or by
    the ignore window, the debounce timer is not running, and no task is
    outstanding. *)
Definition suppressed (w : FileWatcherPrivate) : Prop :=
  (m_ignoreFileChange w = true ∨ isActive (m_fileIgnoreDelayTimer w) = true)
  ∧ isActive (m_fileChangeDelayTimer w) = false
  ∧ asyncTasks w = [].

(** The events that do not come from the owner of the registry. *)
Definition external (e : Event) : Prop :=
  match e with
  | CallAddPath _ _ _ | CallRemovePath _ | CallRemoveAllPaths
  | CallPause | CallResume => False
  | _ => True
  end.

End Invariant.

(* ================================================================== *)
(** ** Concrete files and runs used by the examples *)
(* ================================================================== *)

Module Scenario.
Import Qt Watch Registry Loop.

Definition path : string := "/tmp/a.txt".
Definition contentA : list byte := String.list_byte_of_string "A".
Definition contentB : list byte := String.list_byte_of_string "B".

(** The state a run ends in ([initial] when the run is impossible). *)
Definition after (events : list Event) : World :=
  match run initial events with
  | Some (s, _) => s
  | None => initial
  end.

(** The watch of [path] at the end of a run. *)
Definition watchAfter (events : list Event) : FileWatcherPrivate :=
  default Watch.new (m_watches (watcher (after events)) !! path).

(** [path] holds "A" and is registered without interval or size limit. *)
Definition registered : list Event :=
  [FileWritten path contentA; CallAddPath path 0 (-1)].

(** The file is overwritten with "B", the backend reports it, the checksum
    is computed and delivered: the debounce timer is now running. *)
Definition debouncing : list Event :=
  registered ++
  [FileWritten path contentB; OsFileChanged path;
   TaskFinishes path 0%nat; TaskCallback path 0%nat].

(** Two files of 1025 bytes that differ in their last byte only. *)
Definition fileX : list byte := replicate 1024 "a"%byte ++ ["X"%byte].
Definition fileY : list byte := replicate 1024 "a"%byte ++ ["Y"%byte].

(** A size limit of 2^22 + 1 KiB: a valid [int], whose product with 1024
    is not. *)
Definition hugeLimit : Z := 4194305.

(** Another program overwrites the file, the backend reports it, and the
    owner pauses the registry while the check is in flight. *)
Definition pausedInFlight : list Event :=
  registered ++ [FileWritten path contentB; OsFileChanged path; CallPause].

(** The backend reports a change; while the check is in flight the owner
    pauses and resumes, and the ignore window runs out. *)
Definition resumedInFlight : list Event :=
  registered ++
  [OsFileChanged path; CallPause; CallResume; IgnoreDelayTimeout path].

End Scenario.

(* ================================================================== *)
(** ** Which events reach which watch *)
(* ================================================================== *)

Module Frame.
Import Loop.

(** The events that can touch the watch of [path]: those addressed to the
    path, and the three calls that go to every watch. *)
Definition concerns (path : string) (e : Event) : Prop :=
  match e with
  | CallAddPath p _ _ | CallRemovePath p | OsFileChanged p
  | ChecksumTimeout p | ChangeDelayTimeout p | IgnoreDelayTimeout p
  | TaskFinishes p _ | TaskCallback p _ => p = path
  | CallRemoveAllPaths | CallPause | CallResume => True
  | FileWritten _ _ | FileRemoved _ => False
  end.

(** The events after which the file of [path] and the registration of
    [path] are what they were: everything but a write to the file and a
    new [addPath] of the path. (The file may be removed.) *)
Definition leavesFileAlone (path : string) (e : Event) : Prop :=
  match e with
  | FileWritten p _ | CallAddPath p _ _ => p ≠ path
  | _ => True
  end.

(** Every outstanding task of the watch is still running or has produced
    [checksum]. *)
Definition tasksCarry (checksum : list byte) (w : Watch.FileWatcherPrivate)
  : Prop :=
  Forall (λ task, task = Running ∨ task = Finished checksum)
    (Watch.asyncTasks w).

(** The watch has nothing left to report on [checksum]: a fresh checksum
    of its file would be [checksum], which is the one stored; no
    notification is pending; no outstanding task carries anything else. *)
Definition settled (fs : FileSystem) (checksum : list byte)
    (w : Watch.FileWatcherPrivate) : Prop :=
  Watch.calculateChecksum fs w = checksum
  ∧ Watch.m_fileChecksum w = checksum
  ∧ Qt.isActive (Watch.m_fileChangeDelayTimer w) = false
  ∧ tasksCarry checksum w.

End Frame.

(* ================================================================== *)
(** ** More concrete runs *)
(* ================================================================== *)

Module Sample.
Import Loop.

(** The outcome of a run from [s] ([s] itself, silent, when the run is
    impossible). *)
Definition outcome (s : World) (events : list Event) : World * list Signal :=
  default (s, []) (run s events).

(** The file is registered, then overwritten: the watch is idle and its
    checksum is out of date. *)
Definition overwritten : list Event :=
  Scenario.registered ++ [FileWritten Scenario.path Scenario.contentB].

End Sample.

(* ================================================================== *)
(** ** class EntryAttachments: the attachments of an entry *)
(* ================================================================== *)

Module Attachments.

(** The signals the class emits, in the order of emission. [emitModified()]
    is a method of the base class [ModifiableObject]; the call is recorded
    as such. *)
Inductive Emitted :=
| aboutToBeAdded (key : string)
| added (key : string)
| keyModified (key : string)
| aboutToBeRemoved (key : string)
| removed (key : string)
| aboutToBeReset
| reset
| emitModified.

#[global] Instance Emitted_eq_decision : EqDecision Emitted.
Proof. solve_decision. Defined.

(** The members: the attachments by name, and the watcher that holds the
    paths of the temporary files opened so far. The header that declares
    them is not at hand; their types are read off their use ([files()] is
    a method of [QFileSystemWatcher]). *)
Record EntryAttachments := mkEntryAttachments {
  m_attachments : gmap string (list byte);
  m_attachmentFileWatcher : Qt.QFileSystemWatcher
}.

Definition new : EntryAttachments :=
  {| m_attachments := ∅; m_attachmentFileWatcher := Qt.newFileSystemWatcher |}.

Definition set_attachments (m : gmap string (list byte)) (a : EntryAttachments)
  : EntryAttachments :=
  {| m_attachments := m; m_attachmentFileWatcher := m_attachmentFileWatcher a |}.

Definition hasKey (key : string) (a : EntryAttachments) : bool :=
  bool_decide (is_Some (m_attachments a !! key)).

(** [value]: [QMap::value] gives an empty array for a missing key. *)
Definition value (key : string) (a : EntryAttachments) : list byte :=
  default [] (m_attachments a !! key).

Definition isEmpty (a : EntryAttachments) : bool :=
  bool_decide (m_attachments a = ∅).

Definition set (key : string) (data : list byte) (a : EntryAttachments)
  : EntryAttachments * list Emitted :=
  let addAttachment := negb (hasKey key a) in
  let shouldEmitModified :=
    addAttachment || bool_decide (value key a ≠ data) in
  (if shouldEmitModified
   then set_attachments (<[key := data]> (m_attachments a)) a
   else a,
   (if addAttachment then [aboutToBeAdded key] else [])
   ++ (if addAttachment then [added key] else [keyModified key])
   ++ (if shouldEmitModified then [emitModified] else [])).

(** [Q_ASSERT_X(false, ...)]: in a debug build the program is aborted
    ([None]); in a release build the macro is empty. *)
Definition assertionFailed {A} (debugBuild : bool) (continue : A) : option A :=
  if debugBuild then None else Some continue.

(** [remove(const QString&)]. *)
Definition remove (debugBuild : bool) (key : string) (a : EntryAttachments)
  : option (EntryAttachments * list Emitted) :=
  if negb (hasKey key a)
  then assertionFailed debugBuild (a, [])
  else Some (set_attachments (delete key (m_attachments a)) a,
             [aboutToBeRemoved key; removed key; emitModified]).

(** The loop of [remove(const QStringList&)]: the attachments, the signals
    so far, and [isModified]. *)
Fixpoint removeEach (debugBuild : bool) (keys : list string)
    (st : EntryAttachments * list Emitted * bool)
  : option (EntryAttachments * list Emitted * bool) :=
  match keys with
  | [] => Some st
  | key :: keys' =>
      let '(a, out, isModified) := st in
      if negb (hasKey key a)
      then st' ← assertionFailed debugBuild st; removeEach debugBuild keys' st'
      else removeEach debugBuild keys'
             (set_attachments (delete key (m_attachments a)) a,
              out ++ [aboutToBeRemoved key; removed key], true)
  end.

(** [remove(const QStringList&)]. *)
Definition removeKeys (debugBuild : bool) (keys : list string)
    (a : EntryAttachments) : option (EntryAttachments * list Emitted) :=
  match keys with
  | [] => Some (a, [])
  | _ =>
      '(a', out, isModified) ← removeEach debugBuild keys (a, [], false);
      Some (a', out ++ if isModified : bool then [emitModified] else [])
  end.

Definition rename (debugBuild : bool) (key newKey : string)
    (a : EntryAttachments) : option (EntryAttachments * list Emitted) :=
  let val := value key a in
  '(a1, out1) ← remove debugBuild key a;
  let '(a2, out2) := set newKey val a1 in
  Some (a2, out1 ++ out2).

(** The temporary files as [QFile] sees them: the bytes of a file, whether
    [open(ReadWrite)] succeeds on it (the file's own permissions and locks)
    and whether [remove()] succeeds on it (those of its directory). The two
    do not depend on each other. *)
Record TempFile := mkTempFile {
  bytes : list byte;
  accessible : bool;
  removable : bool
}.

(** The world around [clear]: the files, and how many bytes the random
    generator has handed out. *)
Record Env := mkEnv {
  tempFiles : gmap string TempFile;
  randomDrawn : nat
}.

(** Modelled from the spec: [randomGen()->randomArray(size)] of
    [crypto/Random.h], whose source is not at hand; its contract is "fill a
    buffer with random bytes". [entropy] is the sequence of bytes the
    generator produces; a call hands out the next [size] of them. *)
Definition randomArray (entropy : nat → byte) (size drawn : nat) : list byte :=
  entropy <$> seq drawn size.

(** [QFile::open(QFile::ReadWrite)]: the content of the file, which is
    created empty when it does not exist; [None] when it cannot be
    opened. *)
Definition openReadWrite (files : gmap string TempFile) (path : string)
  : option (list byte) :=
  match files !! path with
  | Some file => if accessible file then Some (bytes file) else None
  | None => Some []
  end.

(** [QIODevice::write] at position [pos]: the data replaces what is there
    and extends the file. *)
Definition writeAt (pos : nat) (data content : list byte) : list byte :=
  take pos content ++ data ++ drop (pos + length data) content.

(** The loop [for (i = 0; i < s / 128 + 1; ++i) f.write(randomArray(128))],
    [count] iterations from position [pos] on. *)
Fixpoint writeRandom (entropy : nat → byte) (count pos drawn : nat)
    (content : list byte) : list byte :=
  match count with
  | O => content
  | S count' =>
      writeRandom entropy count' (pos + 128) (drawn + 128)
        (writeAt pos (randomArray entropy 128 drawn) content)
  end.

(** The number of iterations for a file of size [s]. *)
Definition wipeRounds (content : list byte) : nat :=
  Z.to_nat (Z.of_nat (length content) / 128 + 1).

(** The content of an opened file when the loop is done. *)
Definition overwrite (entropy : nat → byte) (drawn : nat) (content : list byte)
  : list byte :=
  writeRandom entropy (wipeRounds content) 0 drawn content.

(** [QFile::remove], called whether or not the file could be opened. *)
Definition removeFile (path : string) (files : gmap string TempFile)
  : gmap string TempFile :=
  match files !! path with
  | Some file => if removable file then delete path files else files
  | None => files
  end.


(** The body of the loop of [clear] for one watched path. *)
Definition wipe (entropy : nat → byte) (st : EntryAttachments * Env)
    (path : string) : EntryAttachments * Env :=
  let '(a, env) := st in
  let env :=
    match openReadWrite (tempFiles env) path with
    | Some content =>
        {| tempFiles :=
             <[path := {| bytes := overwrite entropy (randomDrawn env) content;
                          accessible := true;
                          removable :=
                            from_option removable true (tempFiles env !! path)
                       |}]> (tempFiles env);
           randomDrawn := randomDrawn env + 128 * wipeRounds content |}
    | None => env
    end in
  ({| m_attachments := m_attachments a;
      m_attachmentFileWatcher :=
        fst (Qt.removePath path (m_attachmentFileWatcher a)) |},
   {| tempFiles := removeFile path (tempFiles env);
      randomDrawn := randomDrawn env |}).

Definition clear (entropy : nat → byte) (a : EntryAttachments) (env : Env)
  : EntryAttachments * Env * list Emitted :=
  if isEmpty a then (a, env, [])
  else
    let a := set_attachments ∅ a in
    (foldl (wipe entropy) (a, env)
       (elements (Qt.files (m_attachmentFileWatcher a))),
     [aboutToBeReset; reset; emitModified]).

(** [operator==] and [operator!=]. *)
Definition equal (a other : EntryAttachments) : bool :=
  bool_decide (m_attachments a = m_attachments other).
Definition differ (a other : EntryAttachments) : bool :=
  bool_decide (m_attachments a ≠ m_attachments other).

Definition copyDataFrom (other : EntryAttachments) (a : EntryAttachments)
  : EntryAttachments * list Emitted :=
  if differ a other
  then (set_attachments (m_attachments other) a,
        [aboutToBeReset; reset; emitModified])
  else (a, []).

(** [attachmentsSize]: an [int] sum over the map; the key counts with the
    length of its UTF-8 encoding, which a [string] here is. *)
Definition attachmentsSize (a : EntryAttachments) : Z :=
  map_fold
    (λ key data size,
       wrap32 (size + wrap32 (Z.of_nat (String.length key)
                              + Z.of_nat (length data))))
    0 (m_attachments a).

End Attachments.

(* ================================================================== *)
(** ** Concrete attachments *)
(* ================================================================== *)

Module AttachmentSample.

(** Two attachments, none opened. *)
Definition two : Attachments.EntryAttachments :=
  fst (Attachments.set "b.txt" Scenario.contentB
         (fst (Attachments.set "a.txt" Scenario.contentA Attachments.new))).

(** One attachment, exported to a temporary file that is being watched. *)
Definition opened : Attachments.EntryAttachments :=
  {| Attachments.m_attachments := {[ "a.txt" := Scenario.contentA ]};
     Attachments.m_attachmentFileWatcher :=
       {| Qt.files := {[ "/tmp/XXXX.txt" ]} |} |}.

(** The temporary directory with that file, 130 bytes long. *)
Definition tempDir : Attachments.Env :=
  {| Attachments.tempFiles :=
       {[ "/tmp/XXXX.txt" :=
            {| Attachments.bytes := replicate 130 "s"%byte;
               Attachments.accessible := true;
               Attachments.removable := true |} ]};
     Attachments.randomDrawn := 0 |}.


(** A random generator that is not: it counts. *)
Definition counting (i : nat) : byte :=
  default x00 (Byte.of_N (N.of_nat (i mod 256))).

End AttachmentSample.

(* ================================================================== *)
(** * Theorems *)
(* ================================================================== *)

(** Unqualified method names are those of the per-path watch; the methods
    of the registry are written [Registry.addPath] and so on. *)
Import Qt Registry Watch Loop PerPath Invariant.

Example sha256_constants :
  length Sha256.roundConstants = 64%nat
  ∧ Sha256.roundConstants !! 0%nat = Some 0x428a2f98
  ∧ Sha256.roundConstants !! 63%nat = Some 0xc67178f2
  ∧ Sha256.initialHash !! 0%nat = Some 0x6a09e667
  ∧ Sha256.initialHash !! 7%nat = Some 0x5be0cd19.
Proof. by repeat split. Qed.

Example sha256_abc :
  hexOf (Sha256.digest (String.list_byte_of_string "abc")) =
  [ 0xba; 0x78; 0x16; 0xbf; 0x8f; 0x01; 0xcf; 0xea;
    0x41; 0x41; 0x40; 0xde; 0x5d; 0xae; 0x22; 0x23;
    0xb0; 0x03; 0x61; 0xa3; 0x96; 0x17; 0x7a; 0x9c;
    0xb4; 0x10; 0xff; 0x61; 0xf2; 0x00; 0x15; 0xad ].
Proof. vm_compute. reflexivity. Qed.

Example sha256_empty :
  hexOf (Sha256.digest []) =
  [ 0xe3; 0xb0; 0xc4; 0x42; 0x98; 0xfc; 0x1c; 0x14;
    0x9a; 0xfb; 0xf4; 0xc8; 0x99; 0x6f; 0xb9; 0x24;
    0x27; 0xae; 0x41; 0xe4; 0x64; 0x9b; 0x93; 0x4c;
    0xa4; 0x95; 0x99; 0x1b; 0x78; 0x52; 0xb8; 0x55 ].
Proof. vm_compute. reflexivity. Qed.

(** Sixty-four bytes: the padding spills into a second block. *)
Example sha256_two_blocks :
  take 4 (hexOf (Sha256.digest (replicate 64 "a"%byte))) = [0xff; 0xe0; 0x54; 0xfe].
Proof. vm_compute. reflexivity. Qed.


(* ------------------------------------------------------------------ *)
(** ** The per-path watch, method by method *)
(* ------------------------------------------------------------------ *)

Section WatchFacts.
Implicit Types (w : FileWatcherPrivate) (fs : FileSystem).

Lemma shouldIgnoreChanges_true w :
  shouldIgnoreChanges w = true ↔
  m_filePath w = "" ∨ m_ignoreFileChange w = true
  ∨ isActive (m_fileIgnoreDelayTimer w) = true
  ∨ isActive (m_fileChangeDelayTimer w) = true.
Proof.
  unfold shouldIgnoreChanges.
  rewrite !orb_true_iff, bool_decide_eq_true. tauto.
Qed.

Lemma shouldIgnoreChanges_false w :
  shouldIgnoreChanges w = false ↔
  m_filePath w ≠ "" ∧ m_ignoreFileChange w = false
  ∧ isActive (m_fileIgnoreDelayTimer w) = false
  ∧ isActive (m_fileChangeDelayTimer w) = false.
Proof.
  unfold shouldIgnoreChanges.
  rewrite !orb_false_iff, bool_decide_eq_false. tauto.
Qed.

(** A gated event leaves the watch exactly as it was. *)
Lemma checkFileChanged_gated w :
  shouldIgnoreChanges w = true → checkFileChanged w = w.
Proof. intros H. unfold checkFileChanged. by rewrite H. Qed.

(** An event that passes the gate sets the guard and submits one task. *)
Lemma checkFileChanged_passes w :
  shouldIgnoreChanges w = false →
  checkFileChanged w =
    set_asyncTasks (asyncTasks w ++ [Running]) (set_ignoreFileChange true w).
Proof. intros H. unfold checkFileChanged. by rewrite H. Qed.


Lemma checksumCallback_same w :
  checksumCallback (m_fileChecksum w) w = set_ignoreFileChange false w.
Proof.
  unfold checksumCallback.
  rewrite bool_decide_eq_false_2; [done | by intros []].
Qed.

Lemma checksumCallback_differs checksum w :
  checksum ≠ m_fileChecksum w →
  checksumCallback checksum w =
    set_ignoreFileChange false
      (set_fileChangeDelayTimer (startTimer 0 (m_fileChangeDelayTimer w))
         (set_fileChecksum checksum w)).
Proof.
  intros H. unfold checksumCallback. by rewrite bool_decide_eq_true_2.
Qed.

End WatchFacts.

(** C5. The completion callback: with a digest different from the stored
    one, the stored one becomes the new digest and the debounce timer is
    started with delay 0, so that its timeout emits [fileChanged] for the
    path; with the same digest, checksum and debounce timer stay as they
    are; the guard [m_ignoreFileChange] is cleared either way, and nothing
    else changes. *)
Theorem checksum_completion (checksum : list byte) (w : FileWatcherPrivate) :
  let w' := checksumCallback checksum w in
  m_ignoreFileChange w' = false
  ∧ (if decide (checksum = m_fileChecksum w)
     then m_fileChecksum w' = m_fileChecksum w
          ∧ m_fileChangeDelayTimer w' = m_fileChangeDelayTimer w
     else m_fileChecksum w' = checksum
          ∧ m_fileChangeDelayTimer w' = startTimer 0 (m_fileChangeDelayTimer w)
          ∧ isActive (m_fileChangeDelayTimer w') = true
          ∧ snd (fileChangeDelayTimeout w') = [fileChanged (m_filePath w)])
  ∧ m_filePath w' = m_filePath w
  ∧ m_fileIgnoreDelayTimer w' = m_fileIgnoreDelayTimer w
  ∧ m_fileChecksumTimer w' = m_fileChecksumTimer w
  ∧ m_fileChecksumSizeBytes w' = m_fileChecksumSizeBytes w
  ∧ asyncTasks w' = asyncTasks w.
Proof.
  intros w'. subst w'. destruct (decide (checksum = m_fileChecksum w)) as [->|Hne].
  - rewrite checksumCallback_same. by repeat split.
  - rewrite checksumCallback_differs by done. by repeat split.
Qed.

(** C9 (as stated, refuted). A watch that was resumed has its ignore-window
    timer running, and [stop] does not touch that timer: path and checksum
    are cleared, the other two timers are stopped, but not all three timers
    are inactive. *)
Lemma stop_leaves_ignore_window_running :
  let w := stop (resume (start {[ Scenario.path := Scenario.contentA ]}
                           Scenario.path 0 (-1) new)) in
  ¬ (m_filePath w = "" ∧ m_fileChecksum w = []
     ∧ isActive (m_fileChecksumTimer w) = false
     ∧ isActive (m_fileChangeDelayTimer w) = false
     ∧ isActive (m_fileIgnoreDelayTimer w) = false).
Proof. intros w (_ & _ & _ & _ & H). vm_compute in H. discriminate. Qed.

(** C9 (amended). After [stop], from any state, the path is empty, the
    stored checksum is empty, and the periodic checksum timer and the
    debounce timer are inactive; the ignore-window timer, the
    [m_ignoreFileChange] flag, the size limit and the outstanding tasks are
    what they were before. *)
Theorem stop_clears_path_checksum_and_two_timers (w : FileWatcherPrivate) :
  let w' := stop w in
  m_filePath w' = "" ∧ m_fileChecksum w' = []
  ∧ isActive (m_fileChecksumTimer w') = false
  ∧ isActive (m_fileChangeDelayTimer w') = false
  ∧ m_fileIgnoreDelayTimer w' = m_fileIgnoreDelayTimer w
  ∧ m_ignoreFileChange w' = m_ignoreFileChange w
  ∧ m_fileChecksumSizeBytes w' = m_fileChecksumSizeBytes w
  ∧ asyncTasks w' = asyncTasks w.
Proof. by repeat split. Qed.

(* ------------------------------------------------------------------ *)
(** ** The registry and the loop, event by event *)
(* ------------------------------------------------------------------ *)

Section LoopFacts.
Implicit Types (s : World) (fw : FileWatcher) (w : FileWatcherPrivate).

Lemma world_eta s : {| disk := disk s; watcher := watcher s |} = s.
Proof. by destruct s. Qed.

Lemma registry_eta fw :
  {| m_watches := m_watches fw; m_fileWatcher := m_fileWatcher fw |} = fw.
Proof. by destruct fw. Qed.

(** Storing a watch back unchanged changes nothing. *)
Lemma update_same path w fw :
  m_watches fw !! path = Some w → update path w fw = fw.
Proof.
  intros H. unfold update. rewrite insert_id by done. apply registry_eta.
Qed.

Lemma silently_same s : silently s (watcher s) = Some (s, []).
Proof. unfold silently. by rewrite world_eta. Qed.

(** An event of the OS backend for a path whose watch gates it. *)
Lemma os_event_gated s path w :
  m_watches (watcher s) !! path = Some w →
  shouldIgnoreChanges w = true →
  step s (OsFileChanged path) = Some (s, []).
Proof.
  intros Hw Hgate. cbn. unfold Registry.checkFileChanged. rewrite Hw.
  rewrite checkFileChanged_gated by done.
  fold (update path w (watcher s)). rewrite update_same by done.
  apply silently_same.
Qed.

Lemma os_event_untracked s path :
  m_watches (watcher s) !! path = None →
  step s (OsFileChanged path) = Some (s, []).
Proof.
  intros Hw. cbn. unfold Registry.checkFileChanged. rewrite Hw.
  apply silently_same.
Qed.

Lemma removePath_untracked s path :
  m_watches (watcher s) !! path = None →
  step s (CallRemovePath path) = Some (s, []).
Proof.
  intros Hw. cbn. unfold Registry.removePath. rewrite Hw.
  apply silently_same.
Qed.

Lemma removePath_untracks fw path :
  m_watches (Registry.removePath path fw) !! path = None.
Proof.
  unfold Registry.removePath.
  destruct (m_watches fw !! path) eqn:Hw; cbn; [apply lookup_delete_eq | done].
Qed.

End LoopFacts.

(** C7. For a path the registry does not track, be it never registered or
    just removed by [removePath]: [hasSameFileChecksum] answers [false], an
    event of the OS backend for the path changes nothing and emits nothing,
    and [removePath] changes nothing; none of the three can fail. *)
Theorem untracked_path_is_ignored (s0 s : World) (path : string) :
  m_watches (watcher s) !! path = None
  ∨ step s0 (CallRemovePath path) = Some (s, []) →
  Registry.hasSameFileChecksum (disk s) path (watcher s) = false
  ∧ step s (OsFileChanged path) = Some (s, [])
  ∧ step s (CallRemovePath path) = Some (s, []).
Proof.
  intros H.
  assert (m_watches (watcher s) !! path = None) as Hw.
  { destruct H as [H|H]; [done|]. cbn in H. unfold silently in H.
    injection H as <-. cbn. apply removePath_untracks. }
  split; [|split].
  - unfold Registry.hasSameFileChecksum. by rewrite Hw.
  - by apply os_event_untracked.
  - by apply removePath_untracked.
Qed.

Lemma untracked_path_is_ignored_witness :
  let s0 := Scenario.after Scenario.registered in
  let s := Scenario.after (Scenario.registered ++ [CallRemovePath Scenario.path]) in
  Registry.hasSameFileChecksum (disk s) Scenario.path (watcher s) = false
  ∧ step s (OsFileChanged Scenario.path) = Some (s, [])
  ∧ step s (CallRemovePath Scenario.path) = Some (s, []).
Proof.
  intros s0 s. apply (untracked_path_is_ignored s0 s Scenario.path).
  right. vm_compute. reflexivity.
Defined.

(* ------------------------------------------------------------------ *)
(** ** Invariants of every reachable state *)
(* ------------------------------------------------------------------ *)

Section Invariants.
Implicit Types (s : World) (fw : FileWatcher) (w : FileWatcherPrivate).

(** Unfold a method of the watch down to the record. *)
Local Ltac watch_method :=
  unfold wellFormed, timersAsConstructed, fileChecksumTimeout, start, stop,
    pause, resume, checkFileChanged, checksumCallback, fileChangeDelayTimeout,
    fileIgnoreDelayTimeout, fired, startTimer, stopTimer;
  cbn;
  repeat (case_match; cbn);
  intuition congruence.

Lemma wellFormed_new : timersAsConstructed new.
Proof. by repeat split. Qed.

Lemma wellFormed_start fs path secs kib w :
  timersAsConstructed w → wellFormed path (start fs path secs kib w).
Proof. watch_method. Qed.

Lemma wellFormed_pause key w : wellFormed key w → wellFormed key (pause w).
Proof. watch_method. Qed.

Lemma wellFormed_resume key w : wellFormed key w → wellFormed key (resume w).
Proof. watch_method. Qed.

Lemma wellFormed_checkFileChanged key w :
  wellFormed key w → wellFormed key (checkFileChanged w).
Proof. watch_method. Qed.

Lemma wellFormed_checksumCallback key checksum w :
  wellFormed key w → wellFormed key (checksumCallback checksum w).
Proof. watch_method. Qed.

Lemma wellFormed_fileChangeDelayTimeout key w :
  wellFormed key w → wellFormed key (fst (fileChangeDelayTimeout w)).
Proof. watch_method. Qed.

Lemma wellFormed_fileIgnoreDelayTimeout key w :
  wellFormed key w → wellFormed key (fileIgnoreDelayTimeout w).
Proof. watch_method. Qed.

Lemma wellFormed_fileChecksumTimeout key w :
  wellFormed key w → wellFormed key (fileChecksumTimeout w).
Proof. watch_method. Qed.

Lemma wellFormed_set_asyncTasks key tasks w :
  wellFormed key w → wellFormed key (set_asyncTasks tasks w).
Proof. watch_method. Qed.

Lemma consistent_new : consistent Registry.new.
Proof. intros key w H. cbn in H. by rewrite lookup_empty in H. Qed.

Lemma consistent_update path w fw :
  consistent fw → wellFormed path w → consistent (update path w fw).
Proof.
  intros Hfw Hw key w'. unfold update. cbn. rewrite lookup_insert.
  case_decide as Hkey; [intros [= <-]; by subst | apply Hfw].
Qed.

Lemma consistent_addPath fs path secs kib fw :
  consistent fw → consistent (Registry.addPath fs path secs kib fw).
Proof.
  intros Hfw key w. unfold Registry.addPath. cbn.
  rewrite lookup_alter. case_decide as Hkey.
  - subst key. destruct (m_watches fw !! path) as [w0|] eqn:Hw0; cbn.
    + rewrite Hw0. cbn. intros [= <-].
      apply wellFormed_start, (Hfw path w0 Hw0).
    + rewrite lookup_insert_eq. cbn. intros [= <-].
      apply wellFormed_start, wellFormed_new.
  - destruct (m_watches fw !! path) eqn:Hw0; cbn; [apply Hfw|].
    rewrite lookup_insert_ne by done. apply Hfw.
Qed.

Lemma consistent_removePath path fw :
  consistent fw → consistent (Registry.removePath path fw).
Proof.
  intros Hfw key w. unfold Registry.removePath.
  destruct (m_watches fw !! path) eqn:Hw0; cbn; [|apply Hfw].
  rewrite lookup_delete. case_decide; [done | apply Hfw].
Qed.

Lemma consistent_removeAllPaths fw :
  consistent fw → consistent (Registry.removeAllPaths fw).
Proof.
  unfold Registry.removeAllPaths.
  generalize (elements (dom (m_watches fw))). intros paths. revert fw.
  induction paths as [|path paths IH]; intros fw Hfw; cbn; [done|].
  apply IH, consistent_removePath, Hfw.
Qed.

Lemma consistent_fmap (f : FileWatcherPrivate → FileWatcherPrivate) fw :
  (∀ key w, wellFormed key w → wellFormed key (f w)) →
  consistent fw →
  consistent {| m_watches := f <$> m_watches fw; m_fileWatcher := m_fileWatcher fw |}.
Proof.
  intros Hf Hfw key w. cbn. rewrite lookup_fmap.
  destruct (m_watches fw !! key) as [w0|] eqn:Hw0; cbn; [|done].
  intros [= <-]. apply Hf, (Hfw key w0 Hw0).
Qed.

Lemma consistent_checkFileChanged path fw :
  consistent fw → consistent (Registry.checkFileChanged path fw).
Proof.
  intros Hfw. unfold Registry.checkFileChanged.
  destruct (m_watches fw !! path) as [w|] eqn:Hw; [|done].
  apply (consistent_update path _ fw Hfw),
    wellFormed_checkFileChanged, (Hfw path w Hw).
Qed.

Lemma watchWhen_Some enabled path s w :
  watchWhen enabled path s = Some w →
  m_watches (watcher s) !! path = Some w ∧ enabled w = true.
Proof.
  unfold watchWhen. destruct (m_watches (watcher s) !! path) as [w0|]; cbn;
    [|done].
  destruct (enabled w0) eqn:He; [|done]. by intros [= <-].
Qed.

(** Every step keeps the registry consistent. *)
Lemma step_consistent s e s' out :
  consistent (watcher s) → step s e = Some (s', out) → consistent (watcher s').
Proof.
  intros Hs. destruct e; cbn; unfold silently.
  - intros [= <- _]. by apply consistent_addPath.
  - intros [= <- _]. by apply consistent_removePath.
  - intros [= <- _]. by apply consistent_removeAllPaths.
  - intros [= <- _]. apply consistent_fmap; [apply wellFormed_pause | done].
  - intros [= <- _]. apply consistent_fmap; [apply wellFormed_resume | done].
  - intros [= <- _]. by apply consistent_checkFileChanged.
  - destruct (watchWhen _ path s) as [w|] eqn:Hw; cbn; [|done].
    apply watchWhen_Some in Hw as [Hw _]. intros [= <- _]. cbn.
    apply consistent_update, wellFormed_fileChecksumTimeout, (Hs _ _ Hw); done.
  - destruct (watchWhen _ path s) as [w|] eqn:Hw; cbn; [|done].
    apply watchWhen_Some in Hw as [Hw _]. intros [= <- _]. cbn.
    apply consistent_update; [done|].
    apply (wellFormed_fileChangeDelayTimeout path w), (Hs _ _ Hw).
  - destruct (watchWhen _ path s) as [w|] eqn:Hw; cbn; [|done].
    apply watchWhen_Some in Hw as [Hw _]. intros [= <- _]. cbn.
    apply consistent_update, wellFormed_fileIgnoreDelayTimeout, (Hs _ _ Hw); done.
  - destruct (m_watches (watcher s) !! path) as [w|] eqn:Hw; cbn; [|done].
    destruct (asyncTasks w !! task) as [[|c]|]; [|done..].
    intros [= <- _]. cbn.
    apply consistent_update, wellFormed_set_asyncTasks, (Hs _ _ Hw); done.
  - destruct (m_watches (watcher s) !! path) as [w|] eqn:Hw; cbn; [|done].
    destruct (asyncTasks w !! task) as [[|c]|]; [done| |done].
    intros [= <- _]. cbn.
    apply consistent_update; [done|].
    apply wellFormed_checksumCallback, wellFormed_set_asyncTasks, (Hs _ _ Hw).
  - by intros [= <- _].
  - by intros [= <- _].
Qed.

Lemma run_consistent events : ∀ s s' out,
  consistent (watcher s) → run s events = Some (s', out) →
  consistent (watcher s').
Proof.
  induction events as [|e events IH]; intros s s' out Hs; cbn.
  - by intros [= <- _].
  - destruct (step s e) as [[s1 out1]|] eqn:Hstep; cbn; [|done].
    destruct (run s1 events) as [[s2 out2]|] eqn:Hrun; cbn; [|done].
    intros [= <- _]. eapply IH; [|exact Hrun]. eapply step_consistent; eauto.
Qed.

Lemma reachable_consistent s : reachable s → consistent (watcher s).
Proof.
  intros (events & out & Hrun).
  eapply run_consistent; [|exact Hrun]. apply consistent_new.
Qed.

End Invariants.

(** C10. A watch without a path (the path string is empty) treats a change
    event and a fire of its periodic timer alike: the gate answers "ignore",
    [checkFileChanged] returns the watch as it was, with no task submitted,
    and the step of the loop leaves the whole state unchanged and emits no
    signal. *)
Theorem pathless_watch_ignores_events
    (s : World) (path : string) (w : FileWatcherPrivate) :
  reachable s →
  m_watches (watcher s) !! path = Some w →
  m_filePath w = "" →
  shouldIgnoreChanges w = true
  ∧ checkFileChanged w = w
  ∧ step s (OsFileChanged path) = Some (s, [])
  ∧ step s (ChecksumTimeout path) =
      if isActive (m_fileChecksumTimer w) then Some (s, []) else None.
Proof.
  intros Hreach Hw Hpath.
  destruct (reachable_consistent s Hreach path w Hw) as (_ & _ & _ & Hperiodic).
  assert (shouldIgnoreChanges w = true) as Hgate.
  { apply shouldIgnoreChanges_true. by left. }
  split; [done|]. split; [by apply checkFileChanged_gated|].
  split; [by eapply os_event_gated|].
  cbn. unfold watchWhen. rewrite Hw. cbn.
  destruct (isActive (m_fileChecksumTimer w)) eqn:Hact; cbn; [|done].
  unfold fileChecksumTimeout, fired. rewrite Hperiodic.
  assert (set_fileChecksumTimer (m_fileChecksumTimer w) w = w) as ->
    by (by destruct w).
  rewrite checkFileChanged_gated by done.
  rewrite update_same by done. apply silently_same.
Qed.

Lemma pathless_watch_ignores_events_witness :
  let s := Scenario.after [CallAddPath "" 5 (-1)] in
  let w := start ∅ "" 5 (-1) new in
  shouldIgnoreChanges w = true
  ∧ checkFileChanged w = w
  ∧ step s (OsFileChanged "") = Some (s, [])
  ∧ step s (ChecksumTimeout "") = Some (s, []).
Proof.
  intros s w. apply (pathless_watch_ignores_events s "" w).
  - exists [CallAddPath "" 5 (-1)], []. vm_compute. reflexivity.
  - vm_compute. reflexivity.
  - vm_compute. reflexivity.
Defined.

(* ------------------------------------------------------------------ *)
(** ** Runs of the loop *)
(* ------------------------------------------------------------------ *)

Section Runs.
Implicit Types (s : World) (w : FileWatcherPrivate).

Lemma run_app events1 events2 : ∀ s,
  run s (events1 ++ events2) =
    '(s1, out1) ← run s events1;
    '(s2, out2) ← run s1 events2;
    Some (s2, out1 ++ out2).
Proof.
  induction events1 as [|e events1 IH]; intros s; cbn.
  - by destruct (run s events2) as [[s2 out2]|].
  - destruct (step s e) as [[s1 out1]|]; cbn; [|done].
    rewrite IH. destruct (run s1 events1) as [[s2 out2]|]; cbn; [|done].
    destruct (run s2 events2) as [[s3 out3]|]; cbn; [|done].
    by rewrite app_assoc.
Qed.

(** Any number of events of the OS backend bounce off a gated watch. *)
Lemma os_events_gated s path w n :
  m_watches (watcher s) !! path = Some w →
  shouldIgnoreChanges w = true →
  run s (replicate n (OsFileChanged path)) = Some (s, []).
Proof.
  intros Hw Hgate. induction n as [|n IH]; cbn [replicate run]; [done|].
  rewrite (os_event_gated s path w) by done. cbn. by rewrite IH.
Qed.

End Runs.

(** C1. While the debounce timer of a tracked path is running (the debounce
    window), every event the OS backend delivers for the path, however
    often repeated, is dropped: no signal, no change of state. The window
    ends when the timer fires; that emits [fileChanged] for the path exactly
    once, and the timer, being single-shot, cannot fire again. *)
Theorem debounce_window_notifies_once
    (s : World) (path : string) (w : FileWatcherPrivate) (n : nat) :
  reachable s →
  m_watches (watcher s) !! path = Some w →
  isActive (m_fileChangeDelayTimer w) = true →
  run s (replicate n (OsFileChanged path)) = Some (s, [])
  ∧ ∃ s', run s (replicate n (OsFileChanged path) ++ [ChangeDelayTimeout path])
            = Some (s', [fileChanged path])
          ∧ step s' (ChangeDelayTimeout path) = None.
Proof.
  intros Hreach Hw Hact.
  destruct (reachable_consistent s Hreach path w Hw) as (Hpath & Hshot & _).
  assert (shouldIgnoreChanges w = true) as Hgate.
  { apply shouldIgnoreChanges_true. auto. }
  pose proof (os_events_gated s path w n Hw Hgate) as Hburst.
  split; [exact Hburst|].
  set (w' := set_fileChangeDelayTimer (fired (m_fileChangeDelayTimer w)) w).
  exists {| disk := disk s; watcher := update path w' (watcher s) |}.
  split.
  - rewrite run_app, Hburst. cbn.
    unfold watchWhen. rewrite Hw. cbn. rewrite Hact. cbn.
    by rewrite Hpath.
  - cbn. unfold watchWhen. cbn. rewrite lookup_insert_eq. cbn.
    unfold fired. by rewrite Hshot.
Qed.

Lemma debounce_window_notifies_once_witness :
  let s := Scenario.after Scenario.debouncing in
  run s (replicate 3 (OsFileChanged Scenario.path)) = Some (s, [])
  ∧ ∃ s', run s (replicate 3 (OsFileChanged Scenario.path)
                 ++ [ChangeDelayTimeout Scenario.path])
            = Some (s', [fileChanged Scenario.path])
          ∧ step s' (ChangeDelayTimeout Scenario.path) = None.
Proof.
  intros s.
  apply (debounce_window_notifies_once s Scenario.path
           (Scenario.watchAfter Scenario.debouncing) 3).
  - exists Scenario.debouncing, []. vm_compute. reflexivity.
  - vm_compute. reflexivity.
  - vm_compute. reflexivity.
Defined.

(* ------------------------------------------------------------------ *)
(** ** The registry and the OS backend *)
(* ------------------------------------------------------------------ *)

Section Subscriptions.
Implicit Types (s : World) (fw : FileWatcher) (w : FileWatcherPrivate).

Lemma Qt_addPath_files fs path q :
  files (fst (Qt.addPath fs path q)) ⊆ {[path]} ∪ files q.
Proof. unfold Qt.addPath. case_bool_decide; cbn; set_solver. Qed.

Lemma Qt_removePath_files path q :
  files (fst (Qt.removePath path q)) = files q ∖ {[path]}.
Proof. unfold Qt.removePath. case_bool_decide; cbn; set_solver. Qed.

Lemma Qt_addPath_refused fs path q :
  snd (Qt.addPath fs path q) = false → fst (Qt.addPath fs path q) = q.
Proof. unfold Qt.addPath. by case_bool_decide. Qed.

Lemma dom_addPath fs path secs kib fw :
  dom (m_watches (Registry.addPath fs path secs kib fw))
  = {[path]} ∪ dom (m_watches fw).
Proof.
  unfold Registry.addPath. cbn. rewrite dom_alter_L.
  destruct (m_watches fw !! path) eqn:Hw; cbn.
  - apply elem_of_dom_2 in Hw. set_solver.
  - by rewrite dom_insert_L.
Qed.

Lemma files_addPath fs path secs kib fw :
  files (m_fileWatcher (Registry.addPath fs path secs kib fw))
  ⊆ files (m_fileWatcher fw) ∪ ({[path]} ∖ dom (m_watches fw)).
Proof.
  unfold Registry.addPath. cbn.
  destruct (m_watches fw !! path) eqn:Hw; cbn; [set_solver|].
  apply not_elem_of_dom in Hw.
  pose proof (Qt_addPath_files fs path (m_fileWatcher fw)). set_solver.
Qed.

Lemma dom_removePath path fw :
  dom (m_watches (Registry.removePath path fw)) = dom (m_watches fw) ∖ {[path]}.
Proof.
  unfold Registry.removePath.
  destruct (m_watches fw !! path) eqn:Hw; cbn.
  - by rewrite dom_delete_L.
  - apply not_elem_of_dom in Hw. set_solver.
Qed.

Lemma files_removePath path fw :
  files (m_fileWatcher (Registry.removePath path fw))
  ⊆ files (m_fileWatcher fw).
Proof.
  unfold Registry.removePath.
  destruct (m_watches fw !! path); cbn; [|done].
  rewrite Qt_removePath_files. set_solver.
Qed.

Lemma files_removePath_tracked path fw :
  subscriptionsTracked fw →
  files (m_fileWatcher (Registry.removePath path fw))
  ⊆ files (m_fileWatcher fw) ∖ {[path]}.
Proof.
  unfold subscriptionsTracked, Registry.removePath. intros Hsub.
  destruct (m_watches fw !! path) eqn:Hw; cbn.
  - rewrite Qt_removePath_files. set_solver.
  - apply not_elem_of_dom in Hw. set_solver.
Qed.

Lemma dom_update path w fw :
  dom (m_watches (update path w fw)) = {[path]} ∪ dom (m_watches fw).
Proof. unfold update. cbn. by rewrite dom_insert_L. Qed.

Lemma dom_checkFileChanged path fw :
  dom (m_watches (Registry.checkFileChanged path fw)) = dom (m_watches fw).
Proof.
  unfold Registry.checkFileChanged.
  destruct (m_watches fw !! path) eqn:Hw; cbn; [|done].
  rewrite dom_insert_L. apply elem_of_dom_2 in Hw. set_solver.
Qed.

Lemma files_checkFileChanged path fw :
  m_fileWatcher (Registry.checkFileChanged path fw) = m_fileWatcher fw.
Proof.
  unfold Registry.checkFileChanged. by destruct (m_watches fw !! path).
Qed.

(** What one step does to the key set and to the subscriptions, provided
    the event is not a removal: keys are only added, and a subscription can
    only be added for a path that was not a key before. *)
Lemma step_keys s e s' out :
  e ≠ CallRemoveAllPaths → (∀ path, e ≠ CallRemovePath path) →
  step s e = Some (s', out) →
  dom (m_watches (watcher s)) ⊆ dom (m_watches (watcher s'))
  ∧ files (m_fileWatcher (watcher s'))
    ⊆ files (m_fileWatcher (watcher s))
      ∪ (dom (m_watches (watcher s')) ∖ dom (m_watches (watcher s))).
Proof.
  intros Hall Hone. destruct e; cbn [step]; unfold silently; try congruence.
  - intros [= <- _]. cbn [watcher]. rewrite dom_addPath.
    pose proof (files_addPath (disk s) path checksumIntervalSeconds
                  checksumSizeKibibytes (watcher s)).
    set_solver.
  - intros [= <- _]. cbn. rewrite dom_fmap_L. set_solver.
  - intros [= <- _]. cbn. rewrite dom_fmap_L. set_solver.
  - intros [= <- _]. cbn [watcher].
    rewrite dom_checkFileChanged, files_checkFileChanged. set_solver.
  - destruct (watchWhen _ path s) as [w|] eqn:Hw; cbn; [|done].
    intros [= <- _]. cbn. rewrite dom_insert_L. set_solver.
  - destruct (watchWhen _ path s) as [w|] eqn:Hw; cbn; [|done].
    intros [= <- _]. cbn. rewrite dom_insert_L. set_solver.
  - destruct (watchWhen _ path s) as [w|] eqn:Hw; cbn; [|done].
    intros [= <- _]. cbn. rewrite dom_insert_L. set_solver.
  - destruct (m_watches (watcher s) !! path) as [w|] eqn:Hw; cbn; [|done].
    destruct (asyncTasks w !! task) as [[|c]|]; [|done..].
    intros [= <- _]. cbn. rewrite dom_insert_L. set_solver.
  - destruct (m_watches (watcher s) !! path) as [w|] eqn:Hw; cbn; [|done].
    destruct (asyncTasks w !! task) as [[|c]|]; [done| |done].
    intros [= <- _]. cbn. rewrite dom_insert_L. set_solver.
  - intros [= <- _]. cbn. set_solver.
  - intros [= <- _]. cbn. set_solver.
Qed.

(** A tracked path without subscription stays so under every step that
    does not remove it. *)
Lemma step_keeps_unsubscribed s e s' out path :
  path ∈ dom (m_watches (watcher s)) →
  path ∉ files (m_fileWatcher (watcher s)) →
  ¬ removes path e →
  step s e = Some (s', out) →
  path ∈ dom (m_watches (watcher s'))
  ∧ path ∉ files (m_fileWatcher (watcher s')).
Proof.
  intros Hin Hout Hrem Hstep.
  assert ((∃ other, e = CallRemovePath other)
          ∨ (∀ other, e ≠ CallRemovePath other)) as [[other ->]|Hno].
  { destruct e; try (right; intros ?; discriminate). left. eauto. }
  - cbn [step] in Hstep. unfold silently in Hstep. injection Hstep as <- _.
    cbn [watcher].
    assert (other ≠ path) by (intros ->; apply Hrem; by left).
    rewrite dom_removePath.
    pose proof (files_removePath other (watcher s)). set_solver.
  - destruct (step_keys s e s' out) as [Hdom Hfiles]; [| |done|].
    + intros ->. apply Hrem. by right.
    + exact Hno.
    + set_solver.
Qed.

Lemma run_keeps_unsubscribed events path : ∀ s s' out,
  path ∈ dom (m_watches (watcher s)) →
  path ∉ files (m_fileWatcher (watcher s)) →
  Forall (λ e, ¬ removes path e) events →
  run s events = Some (s', out) →
  path ∈ dom (m_watches (watcher s'))
  ∧ path ∉ files (m_fileWatcher (watcher s')).
Proof.
  induction events as [|e events IH]; intros s s' out Hin Hout Hev; cbn.
  - by intros [= <- _].
  - apply Forall_cons in Hev as [He Hev].
    destruct (step s e) as [[s1 out1]|] eqn:Hstep; cbn; [|done].
    destruct (run s1 events) as [[s2 out2]|] eqn:Hrun; cbn; [|done].
    intros [= <- _].
    destruct (step_keeps_unsubscribed s e s1 out1 path) as [Hin1 Hout1];
      [done..|].
    by eapply IH.
Qed.

End Subscriptions.

Section SubscriptionInvariant.
Implicit Types (s : World) (fw : FileWatcher).

Lemma subscriptionsTracked_removePath path fw :
  subscriptionsTracked fw → subscriptionsTracked (Registry.removePath path fw).
Proof.
  intros Hsub. unfold subscriptionsTracked. rewrite dom_removePath.
  pose proof (files_removePath_tracked path fw Hsub).
  unfold subscriptionsTracked in Hsub. set_solver.
Qed.

Lemma subscriptionsTracked_removeAllPaths fw :
  subscriptionsTracked fw → subscriptionsTracked (Registry.removeAllPaths fw).
Proof.
  unfold Registry.removeAllPaths.
  generalize (elements (dom (m_watches fw))). intros paths. revert fw.
  induction paths as [|path paths IH]; intros fw Hfw; cbn [foldl]; [done|].
  apply IH, subscriptionsTracked_removePath, Hfw.
Qed.

Lemma step_subscriptionsTracked s e s' out :
  subscriptionsTracked (watcher s) → step s e = Some (s', out) →
  subscriptionsTracked (watcher s').
Proof.
  intros Hsub Hstep.
  assert (e = CallRemoveAllPaths ∨ (∃ path, e = CallRemovePath path)
          ∨ (e ≠ CallRemoveAllPaths ∧ ∀ path, e ≠ CallRemovePath path))
    as [->|[[path ->]|[Hall Hone]]].
  { destruct e; eauto; right; right; split; intros; discriminate. }
  - cbn [step] in Hstep. unfold silently in Hstep. injection Hstep as <- _.
    by apply subscriptionsTracked_removeAllPaths.
  - cbn [step] in Hstep. unfold silently in Hstep. injection Hstep as <- _.
    by apply subscriptionsTracked_removePath.
  - destruct (step_keys s e s' out Hall Hone Hstep) as [Hdom Hfiles].
    unfold subscriptionsTracked in *. set_solver.
Qed.

Lemma run_subscriptionsTracked events : ∀ s s' out,
  subscriptionsTracked (watcher s) → run s events = Some (s', out) →
  subscriptionsTracked (watcher s').
Proof.
  induction events as [|e events IH]; intros s s' out Hs; cbn.
  - by intros [= <- _].
  - destruct (step s e) as [[s1 out1]|] eqn:Hstep; cbn; [|done].
    destruct (run s1 events) as [[s2 out2]|] eqn:Hrun; cbn; [|done].
    intros [= <- _]. eapply IH; [|exact Hrun].
    eapply step_subscriptionsTracked; eauto.
Qed.

Lemma reachable_subscriptionsTracked s :
  reachable s → subscriptionsTracked (watcher s).
Proof.
  intros (events & out & Hrun).
  eapply run_subscriptionsTracked; [|exact Hrun].
  unfold subscriptionsTracked. cbn. set_solver.
Qed.

End SubscriptionInvariant.

(** C8 (as stated, refuted). [/tmp/a.txt] does not exist: the OS backend
    refuses the subscription ([QFileSystemWatcher::addPath] answers
    [false]). [FileWatcher::addPath] returns [void] and drops that answer:
    the call emits no signal and registers the watch, exactly as for a file
    that exists; the caller is told nothing. *)
Lemma failed_subscription_is_not_reported :
  snd (Qt.addPath (disk initial) Scenario.path (m_fileWatcher (watcher initial)))
    = false
  ∧ ¬ (∀ s out,
         step initial (CallAddPath Scenario.path 0 (-1)) = Some (s, out) →
         out ≠ [] ∨ m_watches (watcher s) !! Scenario.path = None).
Proof.
  split; [vm_compute; reflexivity|]. intros H.
  destruct (H (Scenario.after [CallAddPath Scenario.path 0 (-1)]) [])
    as [Hout|Hnone].
  - vm_compute. reflexivity.
  - by apply Hout.
  - vm_compute in Hnone. discriminate.
Qed.

(** C8 (amended). When the OS backend refuses the subscription of a path
    being registered, [addPath] gives its caller no failure signal: it
    emits nothing, leaves the backend as it was, and tracks the path all the
    same. The subscription is not retried: as long as the path is not
    removed from the registry, whatever else happens (the file appearing,
    the path being registered again), the backend stays unsubscribed. *)
Theorem failed_subscription_is_silent_and_not_retried
    (s : World) (path : string) (secs kib : Z) (events : list Event) :
  reachable s →
  m_watches (watcher s) !! path = None →
  snd (Qt.addPath (disk s) path (m_fileWatcher (watcher s))) = false →
  Forall (λ e, ¬ removes path e) events →
  ∃ s', step s (CallAddPath path secs kib) = Some (s', [])
    ∧ is_Some (m_watches (watcher s') !! path)
    ∧ m_fileWatcher (watcher s') = m_fileWatcher (watcher s)
    ∧ ∀ s'' out, run s' events = Some (s'', out) →
        is_Some (m_watches (watcher s'') !! path)
        ∧ path ∉ files (m_fileWatcher (watcher s'')).
Proof.
  intros Hreach Hnew Hfail Hev.
  pose proof (reachable_subscriptionsTracked s Hreach) as Hsub.
  assert (path ∉ files (m_fileWatcher (watcher s))) as Hout.
  { apply not_elem_of_dom in Hnew. unfold subscriptionsTracked in Hsub.
    set_solver. }
  eexists. split; [reflexivity|]. cbn [watcher].
  assert (m_fileWatcher (Registry.addPath (disk s) path secs kib (watcher s))
          = m_fileWatcher (watcher s)) as Hsame.
  { unfold Registry.addPath. rewrite Hnew. cbn.
    by apply Qt_addPath_refused. }
  assert (path ∈ dom (m_watches
            (Registry.addPath (disk s) path secs kib (watcher s)))) as Hin.
  { rewrite dom_addPath. set_solver. }
  split; [by apply elem_of_dom|]. split; [exact Hsame|].
  intros s'' out Hrun.
  eapply run_keeps_unsubscribed in Hrun as [Hin' Hout']; [| | |exact Hev].
  - split; [by apply elem_of_dom | exact Hout'].
  - exact Hin.
  - cbn [watcher]. by rewrite Hsame.
Qed.

Lemma failed_subscription_is_silent_and_not_retried_witness :
  let events := [FileWritten Scenario.path Scenario.contentA;
                 CallAddPath Scenario.path 0 (-1);
                 OsFileChanged Scenario.path] in
  ∃ s', step initial (CallAddPath Scenario.path 0 (-1)) = Some (s', [])
    ∧ is_Some (m_watches (watcher s') !! Scenario.path)
    ∧ m_fileWatcher (watcher s') = m_fileWatcher (watcher initial)
    ∧ ∀ s'' out, run s' events = Some (s'', out) →
        is_Some (m_watches (watcher s'') !! Scenario.path)
        ∧ Scenario.path ∉ files (m_fileWatcher (watcher s'')).
Proof.
  intros events.
  apply (failed_subscription_is_silent_and_not_retried
           initial Scenario.path 0 (-1) events).
  - exists [], []. reflexivity.
  - vm_compute. reflexivity.
  - vm_compute. reflexivity.
  - repeat constructor; intros [H|H]; discriminate H.
Defined.

(* ------------------------------------------------------------------ *)
(** ** The size limit of the checksum *)
(* ------------------------------------------------------------------ *)

Section SizeLimit.
Implicit Types (w : FileWatcherPrivate) (fs : FileSystem).

Lemma wrap32_in_range z : - 2 ^ 31 ≤ z < 2 ^ 31 → wrap32 z = z.
Proof. intros H. unfold wrap32. rewrite Z.mod_small; lia. Qed.

(** As long as the product fits an [int], [start] stores the limit in
    bytes. *)
Lemma start_size_limit fs path secs kib w :
  - 2 ^ 21 ≤ kib < 2 ^ 21 →
  m_fileChecksumSizeBytes (start fs path secs kib w) = kib * 1024.
Proof.
  intros H. unfold start. destruct (0 <? secs); cbn; apply wrap32_in_range; lia.
Qed.

Lemma start_path fs path secs kib w :
  m_filePath (start fs path secs kib w) = path.
Proof. unfold start. by destruct (0 <? secs). Qed.

(** With a positive limit, the digest is that of the first
    [m_fileChecksumSizeBytes] bytes. *)
Lemma calculateChecksum_limited fs w content :
  openReadOnly fs (m_filePath w) = Some content →
  0 < m_fileChecksumSizeBytes w →
  calculateChecksum fs w
  = Sha256.digest (take (Z.to_nat (m_fileChecksumSizeBytes w)) content).
Proof.
  intros Hopen Hpos. unfold calculateChecksum. rewrite Hopen.
  by rewrite (proj2 (Z.ltb_lt _ _) Hpos).
Qed.

(** Without one, it is the digest of the whole file. *)
Lemma calculateChecksum_unlimited fs w content :
  openReadOnly fs (m_filePath w) = Some content →
  m_fileChecksumSizeBytes w ≤ 0 →
  calculateChecksum fs w = Sha256.digest content.
Proof.
  intros Hopen Hpos. unfold calculateChecksum. rewrite Hopen.
  by rewrite (proj2 (Z.ltb_ge _ _) Hpos).
Qed.

(** X11. For a limit of [kib] KiB whose size in bytes fits an [int]: two
    contents of the watched file that agree on the first [kib * 1024] bytes
    have the same checksum, so replacing one by the other goes unnoticed. *)
Lemma checksum_ignores_bytes_beyond_limit fs path secs kib content content' :
  0 < kib < 2 ^ 21 →
  path ≠ "" →
  fs !! path = Some content →
  take (Z.to_nat (kib * 1024)) content = take (Z.to_nat (kib * 1024)) content' →
  let w := start fs path secs kib new in
  m_fileChecksum w = Sha256.digest (take (Z.to_nat (kib * 1024)) content)
  ∧ calculateChecksum (<[path := content']> fs) w = m_fileChecksum w
  ∧ hasSameFileChecksum (<[path := content']> fs) w = true.
Proof.
  intros Hkib Hpath Hfile Hprefix w.
  assert (m_fileChecksumSizeBytes w = kib * 1024) as Hsize
    by (apply start_size_limit; lia).
  assert (m_filePath w = path) as Hw by apply start_path.
  assert (m_fileChecksum w = Sha256.digest (take (Z.to_nat (kib * 1024)) content))
    as Hsum.
  { subst w. unfold start, calculateChecksum, openReadOnly, read.
    destruct (0 <? secs); cbn; rewrite decide_False by done;
      rewrite Hfile, wrap32_in_range by lia;
      by rewrite (proj2 (Z.ltb_lt 0 (kib * 1024))) by lia. }
  assert (calculateChecksum (<[path := content']> fs) w = m_fileChecksum w)
    as Hsame.
  { rewrite (calculateChecksum_limited _ w content').
    - by rewrite Hsize, Hsum, Hprefix.
    - unfold openReadOnly. rewrite Hw, decide_False by done.
      apply lookup_insert_eq.
    - lia. }
  split; [exact Hsum|]. split; [exact Hsame|].
  unfold hasSameFileChecksum. by apply bool_decide_eq_true_2.
Qed.

(** A change within the limit changes the bytes that are hashed. *)
Lemma change_within_limit_is_hashed (content content' : list byte) (i n : nat) :
  (i < n)%nat → content !! i ≠ content' !! i → take n content ≠ take n content'.
Proof.
  intros Hi Hne Heq. apply Hne.
  by rewrite <- (lookup_take_lt content n i), <- (lookup_take_lt content' n i),
    Heq by done.
Qed.

(** X12. For a non-positive limit (in range) the checksum taken at
    registration is the digest of the whole file. *)
Lemma checksum_of_whole_file fs path secs kib content :
  - 2 ^ 21 ≤ kib ≤ 0 →
  path ≠ "" →
  fs !! path = Some content →
  m_fileChecksum (start fs path secs kib new) = Sha256.digest content.
Proof.
  intros Hkib Hpath Hfile.
  unfold start, calculateChecksum, openReadOnly, read.
  destruct (0 <? secs); cbn; rewrite decide_False by done;
    rewrite Hfile, wrap32_in_range by lia;
    by rewrite (proj2 (Z.ltb_ge 0 (kib * 1024))) by lia.
Qed.

End SizeLimit.

(** C6 (the code at the failing input). A limit of 4194305 KiB is 2^32 + 1024
    bytes; as an [int] that is 1024. The watch then hashes 1024 bytes only:
    the two files differ at byte 1024, which is well within the first
    4194305 * 1024 bytes, and yet have the same checksum. *)
Theorem size_limit_wraps_around :
  let w := start {[ Scenario.path := Scenario.fileX ]}
             Scenario.path 0 Scenario.hugeLimit new in
  0 < Scenario.hugeLimit < 2 ^ 31
  ∧ m_fileChecksumSizeBytes w = 1024
  ∧ Scenario.fileX !! 1024%nat ≠ Scenario.fileY !! 1024%nat
  ∧ 1024 < Scenario.hugeLimit * 1024
  ∧ calculateChecksum {[ Scenario.path := Scenario.fileY ]} w = m_fileChecksum w
  ∧ hasSameFileChecksum {[ Scenario.path := Scenario.fileY ]} w = true.
Proof.
  intros w. split; [done|]. split; [by vm_compute|].
  split; [by vm_compute|]. split; [done|].
  split; vm_compute; reflexivity.
Qed.

(* ------------------------------------------------------------------ *)
(** ** One flag for two purposes *)
(* ------------------------------------------------------------------ *)

(* [m_ignoreFileChange] is both the pause flag and the guard against a
   second checksum. [resume] and [start] clear it without asking whether a
   task is outstanding, and the callback clears it without asking whether
   the watch is paused. *)

(** C2 (the code at the failing input). The first event submits a task and
    sets the guard. [pause] and [resume] follow while the task is still
    running; [resume] clears the guard. Once the ignore window has run out,
    the next event passes the gate and a second task is submitted: two
    checksum computations are in flight for the one path. *)
Theorem second_checksum_submitted_while_first_in_flight :
  let w1 := Scenario.watchAfter (Scenario.registered ++ [OsFileChanged Scenario.path]) in
  let w2 := Scenario.watchAfter Scenario.resumedInFlight in
  asyncTasks w1 = [Running] ∧ m_ignoreFileChange w1 = true
  ∧ asyncTasks w2 = [Running] ∧ shouldIgnoreChanges w2 = false
  ∧ ∃ s, run initial (Scenario.resumedInFlight ++ [OsFileChanged Scenario.path])
           = Some (s, [])
         ∧ asyncTasks <$> m_watches (watcher s) !! Scenario.path
           = Some [Running; Running]
         ∧ inFlight Scenario.path s = 2%nat.
Proof.
  intros w1 w2. repeat (split; [by vm_compute|]).
  eexists. split; [vm_compute; reflexivity|].
  split; vm_compute; reflexivity.
Qed.

(** C3 (the code at the failing input). The file is overwritten and the
    check of it is in flight when [pause] is called. The callback runs
    during the pause: it finds a new digest, starts the debounce timer and
    clears [m_ignoreFileChange]. The timer fires, and [fileChanged] is
    emitted although [resume] was never called. *)
Theorem notification_fires_while_paused :
  let during := [TaskFinishes Scenario.path 0%nat;
                 TaskCallback Scenario.path 0%nat;
                 ChangeDelayTimeout Scenario.path] in
  let paused := Scenario.after Scenario.pausedInFlight in
  run initial Scenario.pausedInFlight = Some (paused, [])
  ∧ m_ignoreFileChange (Scenario.watchAfter Scenario.pausedInFlight) = true
  ∧ (CallResume ∉ during)
  ∧ ∃ s, run paused during = Some (s, [fileChanged Scenario.path]).
Proof.
  intros during paused. split; [by vm_compute|]. split; [by vm_compute|].
  split.
  - intros H. repeat (apply elem_of_cons in H as [H|H]; [discriminate|]).
    by apply elem_of_nil in H.
  - eexists. vm_compute. reflexivity.
Qed.

Section Guard.
Implicit Types (w : FileWatcherPrivate).

Lemma checksumCallback_asyncTasks checksum w :
  asyncTasks (checksumCallback checksum w) = asyncTasks w.
Proof. unfold checksumCallback. by case_bool_decide. Qed.

(** The methods other than [resume] and [start] respect the guard. *)
Lemma guarded_checkFileChanged w : guarded w → guarded (checkFileChanged w).
Proof.
  intros Hg. destruct (shouldIgnoreChanges w) eqn:Hgate.
  - by rewrite checkFileChanged_gated.
  - rewrite checkFileChanged_passes by done.
    apply shouldIgnoreChanges_false in Hgate as (_ & Hflag & _).
    destruct Hg as [Hnone|[_ Hset]]; [|congruence].
    right. cbn. by rewrite Hnone.
Qed.

Lemma guarded_pause w : guarded w → guarded (pause w).
Proof. intros [Hnone|[Hone _]]; [by left | by right]. Qed.

Lemma guarded_taskFinishes w task checksum :
  guarded w →
  guarded (set_asyncTasks (<[task := Finished checksum]> (asyncTasks w)) w).
Proof.
  intros [Hnone|[Hone Hset]].
  - left. cbn. by rewrite Hnone.
  - right. cbn. by rewrite length_insert.
Qed.

Lemma guarded_taskCallback w task checksum :
  asyncTasks w !! task = Some (Finished checksum) →
  guarded w →
  guarded (checksumCallback checksum
             (set_asyncTasks (delete task (asyncTasks w)) w)).
Proof.
  intros Htask Hg. left. rewrite checksumCallback_asyncTasks.
  cbn. destruct Hg as [Hnone|[Hone _]]; [by rewrite Hnone in Htask|].
  destruct (asyncTasks w) as [|t [|t' ts]]; [done| |done].
  by destruct task.
Qed.

End Guard.

(* ------------------------------------------------------------------ *)
(** ** The loop, seen from one path *)
(* ------------------------------------------------------------------ *)

Section OnePath.
Implicit Types (s : World) (fw : FileWatcher) (w : FileWatcherPrivate).

Lemma lookup_removeAll paths path : ∀ fw,
  path ∈ paths ∨ m_watches fw !! path = None →
  m_watches (foldl (λ fw p, Registry.removePath p fw) fw paths) !! path = None.
Proof.
  induction paths as [|p paths IH]; intros fw H; cbn [foldl].
  - destruct H as [H|H]; [by apply elem_of_nil in H | done].
  - apply IH. destruct H as [H|H].
    + apply elem_of_cons in H as [->|H]; [right | by left].
      apply removePath_untracks.
    + right. unfold Registry.removePath.
      destruct (m_watches fw !! p) eqn:Hp; cbn; [|done].
      rewrite lookup_delete. by case_decide.
Qed.

Lemma lookup_removeAllPaths fw path :
  m_watches (Registry.removeAllPaths fw) !! path = None.
Proof.
  unfold Registry.removeAllPaths. apply lookup_removeAll.
  destruct (m_watches fw !! path) eqn:Hw; [left | by right].
  apply elem_of_elements, elem_of_dom. by rewrite Hw.
Qed.

Lemma lookup_update p w fw path :
  m_watches (update p w fw) !! path
  = if decide (p = path) then Some w else m_watches fw !! path.
Proof. unfold update. cbn. apply lookup_insert. Qed.

(** The effect of a step on the watch of any one path. *)
Lemma step_onWatch s e s' out path :
  step s e = Some (s', out) →
  m_watches (watcher s') !! path
  = onWatch (disk s) e path (m_watches (watcher s) !! path).
Proof.
  destruct e; cbn [step onWatch]; unfold silently.
  - intros [= <- _]. cbn [watcher]. unfold Registry.addPath. cbn.
    rewrite lookup_alter. case_decide as Hp.
    + subst path0. destruct (m_watches (watcher s) !! path) eqn:Hw; cbn.
      * by rewrite Hw.
      * by rewrite lookup_insert_eq.
    + destruct (m_watches (watcher s) !! path0); cbn; [done|].
      by rewrite lookup_insert_ne.
  - intros [= <- _]. cbn [watcher]. unfold Registry.removePath.
    destruct (m_watches (watcher s) !! path0) eqn:Hw; cbn.
    + rewrite lookup_delete. by case_decide.
    + case_decide; [by subst|done].
  - intros [= <- _]. cbn [watcher]. apply lookup_removeAllPaths.
  - intros [= <- _]. cbn. by rewrite lookup_fmap.
  - intros [= <- _]. cbn. by rewrite lookup_fmap.
  - intros [= <- _]. cbn [watcher]. unfold Registry.checkFileChanged.
    destruct (m_watches (watcher s) !! path0) eqn:Hw; cbn.
    + rewrite lookup_insert. case_decide; [subst; by rewrite Hw | done].
    + case_decide; [subst; by rewrite Hw | done].
  - destruct (watchWhen _ path0 s) as [w|] eqn:Hw; cbn; [|done].
    apply watchWhen_Some in Hw as [Hw _]. intros [= <- _]. cbn [watcher].
    rewrite lookup_update. case_decide; [subst; by rewrite Hw | done].
  - destruct (watchWhen _ path0 s) as [w|] eqn:Hw; cbn; [|done].
    apply watchWhen_Some in Hw as [Hw _]. intros [= <- _]. cbn [watcher].
    rewrite lookup_update. case_decide; [subst; by rewrite Hw | done].
  - destruct (watchWhen _ path0 s) as [w|] eqn:Hw; cbn; [|done].
    apply watchWhen_Some in Hw as [Hw _]. intros [= <- _]. cbn [watcher].
    rewrite lookup_update. case_decide; [subst; by rewrite Hw | done].
  - destruct (m_watches (watcher s) !! path0) as [w|] eqn:Hw; cbn; [|done].
    destruct (asyncTasks w !! task) as [[|c]|] eqn:Htask; [|done..].
    intros [= <- _]. cbn [watcher].
    rewrite lookup_update. case_decide; [subst; by rewrite Hw | done].
  - destruct (m_watches (watcher s) !! path0) as [w|] eqn:Hw; cbn; [|done].
    destruct (asyncTasks w !! task) as [[|c]|] eqn:Htask; [done| |done].
    intros [= <- _]. cbn [watcher].
    rewrite lookup_update. case_decide; [|done].
    subst. rewrite Hw. cbn. by rewrite Htask.
  - by intros [= <- _].
  - by intros [= <- _].
Qed.

(** [fileChanged] for a path is emitted by its debounce timer only. *)
Lemma step_emits s e s' out path :
  consistent (watcher s) →
  step s e = Some (s', out) →
  fileChanged path ∈ out →
  e = ChangeDelayTimeout path
  ∧ ∃ w, m_watches (watcher s) !! path = Some w
         ∧ isActive (m_fileChangeDelayTimer w) = true.
Proof.
  intros Hs.
  destruct e; cbn [step]; unfold silently;
    try (intros [= _ <-] Hin; by apply elem_of_nil in Hin).
  - destruct (watchWhen _ path0 s) as [w|]; cbn; [|done].
    intros [= _ <-] Hin; by apply elem_of_nil in Hin.
  - destruct (watchWhen _ path0 s) as [w|] eqn:Hw; cbn; [|done].
    apply watchWhen_Some in Hw as [Hw Hact].
    intros [= _ <-] Hin. apply list_elem_of_singleton in Hin.
    destruct (Hs path0 w Hw) as [Hpath _].
    injection Hin as ->. rewrite Hpath. eauto.
  - destruct (watchWhen _ path0 s) as [w|]; cbn; [|done].
    intros [= _ <-] Hin; by apply elem_of_nil in Hin.
  - destruct (m_watches (watcher s) !! path0) as [w|]; cbn; [|done].
    destruct (asyncTasks w !! task) as [[|c]|]; [|done..].
    intros [= _ <-] Hin; by apply elem_of_nil in Hin.
  - destruct (m_watches (watcher s) !! path0) as [w|]; cbn; [|done].
    destruct (asyncTasks w !! task) as [[|c]|]; [done| |done].
    intros [= _ <-] Hin; by apply elem_of_nil in Hin.
Qed.

End OnePath.

Section GuardAlongRuns.
Implicit Types (s : World) (w : FileWatcherPrivate).

Lemma guarded_set_timer w w' :
  asyncTasks w' = asyncTasks w → m_ignoreFileChange w' = m_ignoreFileChange w →
  guarded w → guarded w'.
Proof. unfold guarded. by intros -> ->. Qed.

(** Every event except [resume] and the re-registration of the path
    respects the guard of the path's watch. *)
Lemma onWatch_guarded fs e path watch :
  e ≠ CallResume → (∀ secs kib, e ≠ CallAddPath path secs kib) →
  from_option guarded True watch →
  from_option guarded True (onWatch fs e path watch).
Proof.
  intros Hresume Hadd Hg.
  destruct e; cbn [onWatch]; try done;
    repeat case_decide; subst; try done;
    destruct watch as [w|]; cbn in *; try done.
  - by destruct (Hadd checksumIntervalSeconds checksumSizeKibibytes).
  - by destruct (Hadd checksumIntervalSeconds checksumSizeKibibytes).
  - by apply guarded_pause.
  - by apply guarded_checkFileChanged.
  - by apply guarded_checkFileChanged, (guarded_set_timer w).
  - by apply guarded_taskFinishes.
  - destruct (asyncTasks w !! task) as [[|c]|] eqn:Htask; [done| |done].
    by apply guarded_taskCallback.
Qed.

Lemma run_guarded events path : ∀ s s' out,
  from_option guarded True (m_watches (watcher s) !! path) →
  Forall (λ e, e ≠ CallResume ∧ ∀ secs kib, e ≠ CallAddPath path secs kib)
    events →
  run s events = Some (s', out) →
  from_option guarded True (m_watches (watcher s') !! path).
Proof.
  induction events as [|e events IH]; intros s s' out Hg Hev; cbn [run].
  - by intros [= <- _].
  - apply Forall_cons in Hev as [[He1 He2] Hev].
    destruct (step s e) as [[s1 out1]|] eqn:Hstep; cbn; [|done].
    destruct (run s1 events) as [[s2 out2]|] eqn:Hrun; cbn; [|done].
    intros [= <- _]. eapply IH; [|exact Hev|exact Hrun].
    rewrite (step_onWatch s e s1 out1 path Hstep).
    by apply onWatch_guarded.
Qed.

(** X7. Where the guard does hold: from the registration of a path on, as
    long as the owner neither resumes nor registers the path again, at most
    one checksum computation is in flight for it. *)
Lemma at_most_one_in_flight_without_resume s path secs kib events s' out :
  m_watches (watcher s) !! path = None →
  Forall (λ e, e ≠ CallResume ∧ ∀ secs kib, e ≠ CallAddPath path secs kib)
    events →
  run s (CallAddPath path secs kib :: events) = Some (s', out) →
  (inFlight path s' ≤ 1)%nat.
Proof.
  intros Hnew Hev. cbn [run].
  destruct (step s _) as [[s1 out1]|] eqn:Hstep; cbn; [|done].
  destruct (run s1 events) as [[s2 out2]|] eqn:Hrun; cbn; [|done].
  intros [= <- _].
  assert (from_option guarded True (m_watches (watcher s2) !! path)) as Hg.
  { eapply run_guarded; [|exact Hev|exact Hrun].
    rewrite (step_onWatch s _ s1 out1 path Hstep), Hnew. cbn.
    rewrite decide_True by done. cbn. left.
    unfold start. by destruct (0 <? secs). }
  unfold inFlight. destruct (m_watches (watcher s2) !! path) as [w|]; [|lia].
  destruct Hg as [->|[-> _]]; cbn; lia.
Qed.

End GuardAlongRuns.

Section Suppression.
Implicit Types (s : World) (w : FileWatcherPrivate).

(** No event from outside gets through a suppressed watch; only the end of
    an ignore window that is not backed by the flag lifts the suppression. *)
Lemma onWatch_suppressed fs e path w :
  external e → suppressed w →
  (e = IgnoreDelayTimeout path → m_ignoreFileChange w = true) →
  ∃ w', onWatch fs e path (Some w) = Some w'
        ∧ suppressed w'
        ∧ m_ignoreFileChange w' = m_ignoreFileChange w.
Proof.
  intros Hext (Hgate & Hdelay & Htasks) Hwindow.
  assert (shouldIgnoreChanges w = true) as Hignore.
  { apply shouldIgnoreChanges_true. tauto. }
  destruct e; cbn [onWatch external] in *; try done;
    repeat case_decide; subst; cbn [fmap option_fmap option_map];
    try (by exists w).
  - rewrite checkFileChanged_gated by done. by exists w.
  - eexists. split; [done|]. unfold fileChecksumTimeout.
    rewrite checkFileChanged_gated; [done|].
    apply shouldIgnoreChanges_true. cbn. tauto.
  - eexists. split; [done|]. repeat split; cbn; try done.
    unfold fired. by destruct (isSingleShot _).
  - eexists. split; [done|]. repeat split; cbn; try done.
    left. by apply Hwindow.
  - eexists. split; [done|]. repeat split; cbn; try done.
    by rewrite Htasks.
  - rewrite Htasks. cbn. by exists w.
Qed.

Lemma run_suppressed events path : ∀ s s' out w,
  consistent (watcher s) →
  m_watches (watcher s) !! path = Some w →
  suppressed w →
  Forall external events →
  (IgnoreDelayTimeout path ∈ events → m_ignoreFileChange w = true) →
  run s events = Some (s', out) →
  (fileChanged path ∉ out)
  ∧ consistent (watcher s')
  ∧ ∃ w', m_watches (watcher s') !! path = Some w'
          ∧ suppressed w'
          ∧ m_ignoreFileChange w' = m_ignoreFileChange w.
Proof.
  induction events as [|e events IH]; intros s s' out w Hs Hw Hsup Hev Hwin;
    cbn [run].
  - intros [= <- <-]. split; [by intros ?%elem_of_nil|]. eauto.
  - apply Forall_cons in Hev as [He Hev].
    destruct (step s e) as [[s1 out1]|] eqn:Hstep; cbn; [|done].
    destruct (run s1 events) as [[s2 out2]|] eqn:Hrun; cbn; [|done].
    intros [= <- <-].
    destruct (onWatch_suppressed (disk s) e path w He Hsup)
      as (w1 & Hw1 & Hsup1 & Hflag1).
    { intros ->. apply Hwin. by left. }
    pose proof (step_onWatch s e s1 out1 path Hstep) as Hlookup.
    rewrite Hw, Hw1 in Hlookup.
    destruct (IH s1 s2 out2 w1) as (Hout2 & Hs2 & w2 & Hw2 & Hsup2 & Hflag2);
      [by eapply step_consistent|done..| |done|].
    { intros Hin. rewrite Hflag1. apply Hwin. by right. }
    split; [|split; [done|]].
    + intros [Hin|Hin]%elem_of_app; [|done].
      destruct (step_emits s e s1 out1 path Hs Hstep Hin)
        as (_ & w0 & Hw0 & Hact).
      rewrite Hw in Hw0. injection Hw0 as <-.
      destruct Hsup as (_ & Hdelay & _). congruence.
    + exists w2. by rewrite Hflag2, Hflag1.
Qed.

(** X8. Where the pause does hold: if no checksum computation is in flight
    for the path when [pause] is called, no [fileChanged] is emitted for it,
    whatever the backend, the timers and the file system do during the
    pause and, after [resume], until the ignore window of the path has run
    out. *)
Lemma pause_holds_when_nothing_in_flight
    s path w during draining s' out :
  reachable s →
  m_watches (watcher s) !! path = Some w →
  asyncTasks w = [] →
  Forall external during → Forall external draining →
  IgnoreDelayTimeout path ∉ draining →
  run s ([CallPause] ++ during ++ [CallResume] ++ draining) = Some (s', out) →
  fileChanged path ∉ out.
Proof.
  intros Hreach Hw Htasks Hduring Hdraining Hwindow.
  pose proof (reachable_consistent s Hreach) as Hs.
  change ([CallPause] ++ during ++ [CallResume] ++ draining)
    with (CallPause :: during ++ CallResume :: draining).
  cbn [run step]. unfold silently. cbn [mbind option_bind].
  set (s1 := {| disk := disk s; watcher := Registry.pause (watcher s) |}).
  assert (consistent (watcher s1)) as Hs1.
  { apply consistent_fmap; [apply wellFormed_pause | done]. }
  assert (m_watches (watcher s1) !! path = Some (pause w)) as Hw1.
  { cbn. by rewrite lookup_fmap, Hw. }
  assert (suppressed (pause w)) as Hsup1.
  { split; [by left|]. by split. }
  rewrite run_app.
  destruct (run s1 during) as [[s2 out2]|] eqn:Hrun2;
    cbn [mbind option_bind]; [|done].
  destruct (run_suppressed during path s1 s2 out2 (pause w))
    as (Hout2 & Hs2 & w2 & Hw2 & Hsup2 & _); [done..|].
  cbn [run step]. unfold silently. cbn [mbind option_bind].
  set (s3 := {| disk := disk s2; watcher := Registry.resume (watcher s2) |}).
  assert (consistent (watcher s3)) as Hs3.
  { apply consistent_fmap; [apply wellFormed_resume | done]. }
  assert (m_watches (watcher s3) !! path = Some (resume w2)) as Hw3.
  { cbn. by rewrite lookup_fmap, Hw2. }
  assert (suppressed (resume w2)) as Hsup3.
  { destruct Hsup2 as (_ & Hdelay & Hnone). unfold resume. cbn.
    destruct (isActive (m_fileIgnoreDelayTimer w2)) eqn:Hact; cbn;
      (split; [by right|by split]). }
  destruct (run s3 draining) as [[s4 out4]|] eqn:Hrun4;
    cbn [mbind option_bind]; [|done].
  destruct (run_suppressed draining path s3 s4 out4 (resume w2))
    as (Hout4 & _); [done..|].
  intros [= _ <-]. cbn [app].
  intros [Hin|Hin]%elem_of_app; done.
Qed.

End Suppression.

(* ------------------------------------------------------------------ *)
(** ** A burst of events for one change *)
(* ------------------------------------------------------------------ *)

Section Burst.
Implicit Types (s : World) (w : FileWatcherPrivate).

Lemma lookup_withWatch path w s :
  m_watches (watcher (withWatch path w s)) !! path = Some w.
Proof. cbn. apply lookup_insert_eq. Qed.

Lemma withWatch_twice path w w' s :
  withWatch path w' (withWatch path w s) = withWatch path w' s.
Proof. unfold withWatch, update. cbn. by rewrite insert_insert_eq. Qed.

Lemma step_os_event s path w :
  m_watches (watcher s) !! path = Some w →
  step s (OsFileChanged path) = Some (withWatch path (checkFileChanged w) s, []).
Proof.
  intros Hw. cbn. unfold Registry.checkFileChanged. by rewrite Hw.
Qed.

Lemma step_taskFinishes s path w task :
  m_watches (watcher s) !! path = Some w →
  asyncTasks w !! task = Some Running →
  step s (TaskFinishes path task)
  = Some (withWatch path
            (set_asyncTasks
               (<[task := Finished (calculateChecksum (disk s) w)]> (asyncTasks w))
               w) s, []).
Proof. intros Hw Htask. cbn. rewrite Hw. cbn. by rewrite Htask. Qed.

Lemma step_taskCallback s path w task checksum :
  m_watches (watcher s) !! path = Some w →
  asyncTasks w !! task = Some (Finished checksum) →
  step s (TaskCallback path task)
  = Some (withWatch path
            (checksumCallback checksum
               (set_asyncTasks (delete task (asyncTasks w)) w)) s, []).
Proof. intros Hw Htask. cbn. rewrite Hw. cbn. by rewrite Htask. Qed.

Lemma step_changeDelayTimeout s path w :
  m_watches (watcher s) !! path = Some w →
  isActive (m_fileChangeDelayTimer w) = true →
  step s (ChangeDelayTimeout path)
  = Some (withWatch path
            (set_fileChangeDelayTimer (fired (m_fileChangeDelayTimer w)) w) s,
          [fileChanged (m_filePath w)]).
Proof.
  intros Hw Hact. cbn. unfold watchWhen. rewrite Hw. cbn. by rewrite Hact.
Qed.

(** The first event of a burst submits the task; the guard holds the rest
    of the burst back until the callback has run. *)
Lemma burst_submits_one_task s path w n checksum :
  m_watches (watcher s) !! path = Some w →
  shouldIgnoreChanges w = false →
  asyncTasks w = [] →
  checksum = calculateChecksum (disk s) w →
  run s (replicate (S n) (OsFileChanged path)
         ++ [TaskFinishes path 0%nat; TaskCallback path 0%nat])
  = Some (withWatch path (checksumCallback checksum w) s, []).
Proof.
  intros Hw Hgate Htasks ->.
  set (w1 := set_asyncTasks [Running] (set_ignoreFileChange true w)).
  assert (checkFileChanged w = w1) as Hcheck.
  { rewrite checkFileChanged_passes by done. unfold w1. by rewrite Htasks. }
  rewrite run_app. cbn [replicate run].
  rewrite (step_os_event s path w Hw), Hcheck. cbn [mbind option_bind].
  rewrite (os_events_gated _ path w1 n); cycle 1.
  { apply lookup_withWatch. }
  { apply shouldIgnoreChanges_true. right. by left. }
  cbn [mbind option_bind run].
  rewrite (step_taskFinishes _ path w1 0);
    [|apply lookup_withWatch|done].
  cbn [mbind option_bind]. rewrite withWatch_twice.
  erewrite (step_taskCallback _ path _ 0);
    [|apply lookup_withWatch|done].
  cbn [mbind option_bind]. rewrite withWatch_twice. cbn.
  assert (calculateChecksum (disk s) w1 = calculateChecksum (disk s) w) as ->
    by done.
  do 3 f_equal. unfold checksumCallback, w1.
  destruct w; cbn in *; subst. by case_bool_decide.
Qed.


(** The callback leaves an idle watch alone when the digest is the stored
    one. *)
Lemma checksumCallback_idle w :
  shouldIgnoreChanges w = false →
  checksumCallback (m_fileChecksum w) w = w.
Proof.
  intros Hgate. rewrite checksumCallback_same.
  apply shouldIgnoreChanges_false in Hgate as (_ & Hflag & _).
  destruct w. cbn in *. by subst.
Qed.

(** X10. A burst of events for a file whose content did not change, seen
    by an idle watch: once the checksum has been delivered the state is
    exactly what it was before the burst, and nothing was emitted. *)
Lemma burst_for_unchanged_file_notifies_nobody s path w n :
  m_watches (watcher s) !! path = Some w →
  shouldIgnoreChanges w = false →
  asyncTasks w = [] →
  calculateChecksum (disk s) w = m_fileChecksum w →
  run s (replicate (S n) (OsFileChanged path)
         ++ [TaskFinishes path 0%nat; TaskCallback path 0%nat])
  = Some (s, []).
Proof.
  intros Hw Hgate Htasks Hsame.
  rewrite (burst_submits_one_task s path w n _ Hw Hgate Htasks eq_refl).
  rewrite Hsame, checksumCallback_idle by done.
  unfold withWatch. rewrite update_same by done. by rewrite world_eta.
Qed.

End Burst.

(** Right after [addPath] the checksum is the one just computed. *)
Lemma same_checksum_after_registration
    (fs : FileSystem) (path : string) (secs kib : Z) (fw : FileWatcher) :
  Registry.hasSameFileChecksum fs path (Registry.addPath fs path secs kib fw)
  = true.
Proof.
  unfold Registry.hasSameFileChecksum.
  assert (m_watches (Registry.addPath fs path secs kib fw) !! path
          = Some (start fs path secs kib
                    (default new (m_watches fw !! path)))) as ->.
  { unfold Registry.addPath. cbn. rewrite lookup_alter, decide_True by done.
    destruct (m_watches fw !! path) as [w|] eqn:Hw; cbn.
    - by rewrite Hw.
    - by rewrite lookup_insert_eq. }
  unfold hasSameFileChecksum. apply bool_decide_eq_true_2.
  unfold start, calculateChecksum.
  destruct (0 <? secs); cbn; by destruct (openReadOnly fs path).
Qed.

(** The scenario of the spec: [/tmp/a.txt] holds "A" and is registered; it
    is overwritten with "B"; the backend reports it; one notification. *)
Example overwrite_notifies_once :
  ∃ s, run initial (Scenario.debouncing ++ [ChangeDelayTimeout Scenario.path])
       = Some (s, [fileChanged Scenario.path])
     ∧ hexOf (take 4 (m_fileChecksum (Scenario.watchAfter Scenario.registered)))
       = [0x55; 0x9a; 0xea; 0xd0]
     ∧ (m_watches (watcher s) !! Scenario.path
        ≫= λ w, Some (take 4 (hexOf (m_fileChecksum w))))
       = Some [0xdf; 0x7e; 0x70; 0xe5].
Proof.
  eexists. split; [vm_compute; reflexivity|].
  split; vm_compute; reflexivity.
Qed.

(* ================================================================== *)
(** * Further properties of the registry *)
(* ================================================================== *)

(** X1. In every state the registry can reach, the watch stored under a
    path watches that path, its debounce and ignore-window timers are
    single-shot and its checksum timer is periodic. *)
Theorem registry_key_is_watch_path
    (s : World) (path : string) (w : FileWatcherPrivate) :
  reachable s →
  m_watches (watcher s) !! path = Some w →
  m_filePath w = path
  ∧ isSingleShot (m_fileChangeDelayTimer w) = true
  ∧ isSingleShot (m_fileIgnoreDelayTimer w) = true
  ∧ isSingleShot (m_fileChecksumTimer w) = false.
Proof. intros Hreach Hw. exact (reachable_consistent s Hreach path w Hw). Qed.

Lemma registry_key_is_watch_path_witness :
  let w := Scenario.watchAfter Scenario.debouncing in
  m_filePath w = Scenario.path
  ∧ isSingleShot (m_fileChangeDelayTimer w) = true
  ∧ isSingleShot (m_fileIgnoreDelayTimer w) = true
  ∧ isSingleShot (m_fileChecksumTimer w) = false.
Proof.
  intros w.
  apply (registry_key_is_watch_path (Scenario.after Scenario.debouncing)).
  - exists Scenario.debouncing, []. vm_compute. reflexivity.
  - vm_compute. reflexivity.
Defined.

(** X2. In every reachable state the OS backend is subscribed to tracked
    paths only: a path without a watch has no subscription. *)
Theorem backend_subscribed_to_tracked_paths_only (s : World) (path : string) :
  reachable s →
  path ∈ files (m_fileWatcher (watcher s)) →
  is_Some (m_watches (watcher s) !! path).
Proof.
  intros Hreach Hin. apply elem_of_dom.
  by apply (reachable_subscriptionsTracked s Hreach).
Qed.

Lemma backend_subscribed_to_tracked_paths_only_witness :
  is_Some (m_watches (watcher (Scenario.after Scenario.registered))
             !! Scenario.path).
Proof.
  apply backend_subscribed_to_tracked_paths_only.
  - exists Scenario.registered, []. vm_compute. reflexivity.
  - vm_compute. reflexivity.
Defined.

Lemma removeAllPaths_no_watches (fw : FileWatcher) :
  m_watches (Registry.removeAllPaths fw) = ∅.
Proof.
  apply map_eq. intros path. rewrite lookup_empty. apply lookup_removeAllPaths.
Qed.

(** X3. [removeAllPaths], in any reachable state, leaves no watch and no
    subscription of the OS backend behind; it emits nothing and does not
    touch the files. *)
Theorem removeAllPaths_leaves_nothing (s : World) :
  reachable s →
  ∃ s', step s CallRemoveAllPaths = Some (s', [])
        ∧ m_watches (watcher s') = ∅
        ∧ files (m_fileWatcher (watcher s')) = ∅
        ∧ disk s' = disk s.
Proof.
  intros Hreach. eexists. split; [reflexivity|]. cbn [watcher disk].
  split; [apply removeAllPaths_no_watches|]. split; [|done].
  pose proof (subscriptionsTracked_removeAllPaths (watcher s)
                (reachable_subscriptionsTracked s Hreach)) as Hsub.
  unfold subscriptionsTracked in Hsub.
  rewrite removeAllPaths_no_watches, dom_empty_L in Hsub. set_solver.
Qed.

Lemma removeAllPaths_leaves_nothing_witness :
  let s := Scenario.after Scenario.debouncing in
  ∃ s', step s CallRemoveAllPaths = Some (s', [])
        ∧ m_watches (watcher s') = ∅
        ∧ files (m_fileWatcher (watcher s')) = ∅
        ∧ disk s' = disk s.
Proof.
  intros s. apply removeAllPaths_leaves_nothing.
  exists Scenario.debouncing, []. vm_compute. reflexivity.
Defined.

Section Registration.
Implicit Types (fs : FileSystem) (fw : FileWatcher) (w : FileWatcherPrivate).

(** The watch [addPath] leaves under the path. *)
Lemma lookup_addPath fs path secs kib fw :
  m_watches (Registry.addPath fs path secs kib fw) !! path
  = Some (start fs path secs kib (default new (m_watches fw !! path))).
Proof.
  unfold Registry.addPath. cbn. rewrite lookup_alter, decide_True by done.
  destruct (m_watches fw !! path) as [w|] eqn:Hw; cbn.
  - by rewrite Hw.
  - by rewrite lookup_insert_eq.
Qed.

Lemma start_checksum fs path secs kib w :
  m_fileChecksum (start fs path secs kib w)
  = match openReadOnly fs path with
    | Some content =>
        if 0 <? wrap32 (kib * 1024)
        then Sha256.digest (read (wrap32 (kib * 1024)) content)
        else Sha256.digest content
    | None => []
    end.
Proof. unfold start, calculateChecksum. by destruct (0 <? secs). Qed.

Lemma start_size fs path secs kib w :
  m_fileChecksumSizeBytes (start fs path secs kib w) = wrap32 (kib * 1024).
Proof. unfold start. by destruct (0 <? secs). Qed.

End Registration.

(** X4. Whatever the state of the registry and of the file (present,
    missing, unreadable), right after [addPath(path, ...)]
    [hasSameFileChecksum(path)] answers [true]. *)
Theorem registered_path_has_same_checksum
    (s : World) (path : string) (secs kib : Z) :
  ∃ s', step s (CallAddPath path secs kib) = Some (s', [])
        ∧ Registry.hasSameFileChecksum (disk s') path (watcher s') = true.
Proof.
  eexists. split; [reflexivity|]. cbn [disk watcher].
  apply same_checksum_after_registration.
Qed.

(** X5. [addPath] resets the watch of the path, whether it existed or not:
    afterwards the periodic timer runs exactly when the interval is
    positive (with the interval in milliseconds, as an [int]), the debounce
    timer is stopped, [m_ignoreFileChange] is clear and the size limit is
    the new one. The ignore-window timer and the outstanding tasks of an
    existing watch are carried over. *)
Theorem addPath_restarts_the_watch
    (fs : FileSystem) (path : string) (secs kib : Z) (fw : FileWatcher) :
  let before := default new (m_watches fw !! path) in
  ∃ w, m_watches (Registry.addPath fs path secs kib fw) !! path = Some w
       ∧ m_filePath w = path
       ∧ isActive (m_fileChecksumTimer w) = (0 <? secs)
       ∧ (if 0 <? secs
          then interval (m_fileChecksumTimer w) = wrap32 (secs * 1000)
          else interval (m_fileChecksumTimer w)
               = interval (m_fileChecksumTimer before))
       ∧ isActive (m_fileChangeDelayTimer w) = false
       ∧ m_ignoreFileChange w = false
       ∧ m_fileChecksumSizeBytes w = wrap32 (kib * 1024)
       ∧ m_fileIgnoreDelayTimer w = m_fileIgnoreDelayTimer before
       ∧ asyncTasks w = asyncTasks before.
Proof.
  intros before. eexists. split; [apply lookup_addPath|].
  fold before. unfold start. by destruct (0 <? secs).
Qed.

(** X6. For a registered file without size limit, [hasSameFileChecksum]
    tells exactly whether the file's SHA-256 digest is still the one taken
    at registration: replacing the content by one with another digest
    makes it answer [false], by one with the same digest [true]. *)
Theorem hasSameFileChecksum_compares_digests
    (fs : FileSystem) (path : string) (secs kib : Z) (fw : FileWatcher)
    (content content' : list byte) :
  path ≠ "" →
  fs !! path = Some content →
  - 2 ^ 21 ≤ kib ≤ 0 →
  Registry.hasSameFileChecksum (<[path := content']> fs) path
    (Registry.addPath fs path secs kib fw)
  = bool_decide (Sha256.digest content' = Sha256.digest content).
Proof.
  intros Hpath Hfile Hkib.
  unfold Registry.hasSameFileChecksum. rewrite lookup_addPath.
  unfold hasSameFileChecksum.
  set (w := start fs path secs kib _).
  assert (m_fileChecksum w = Sha256.digest content) as ->.
  { unfold w. rewrite start_checksum. unfold openReadOnly.
    rewrite decide_False, Hfile, wrap32_in_range by (done || lia).
    by rewrite (proj2 (Z.ltb_ge 0 (kib * 1024))) by lia. }
  rewrite (calculateChecksum_unlimited _ w content'); [done| |].
  - unfold w. rewrite start_path. unfold openReadOnly.
    rewrite decide_False by done. apply lookup_insert_eq.
  - unfold w. rewrite start_size, wrap32_in_range; lia.
Qed.

Lemma hasSameFileChecksum_compares_digests_witness :
  Registry.hasSameFileChecksum
    (<[Scenario.path := Scenario.contentB]> {[ Scenario.path := Scenario.contentA ]})
    Scenario.path
    (Registry.addPath {[ Scenario.path := Scenario.contentA ]}
       Scenario.path 0 (-1) Registry.new)
  = bool_decide (Sha256.digest Scenario.contentB = Sha256.digest Scenario.contentA).
Proof.
  apply (hasSameFileChecksum_compares_digests
           {[ Scenario.path := Scenario.contentA ]} Scenario.path 0 (-1)
           Registry.new Scenario.contentA Scenario.contentB).
  - discriminate.
  - vm_compute. reflexivity.
  - lia.
Defined.

Lemma at_most_one_in_flight_without_resume_witness :
  let events := [FileWritten Scenario.path Scenario.contentA;
                 OsFileChanged Scenario.path; OsFileChanged Scenario.path;
                 CallPause; OsFileChanged Scenario.path] in
  (inFlight Scenario.path
     (Scenario.after (CallAddPath Scenario.path 0 (-1) :: events)) ≤ 1)%nat.
Proof.
  intros events.
  apply (at_most_one_in_flight_without_resume
           initial Scenario.path 0 (-1) events _ []).
  - reflexivity.
  - repeat constructor; try discriminate; intros; discriminate.
  - vm_compute. reflexivity.
Defined.

Lemma pause_holds_when_nothing_in_flight_witness :
  let during := [FileWritten Scenario.path Scenario.contentB;
                 OsFileChanged Scenario.path; OsFileChanged Scenario.path] in
  let draining := [OsFileChanged Scenario.path] in
  let result := Sample.outcome (Scenario.after Scenario.registered)
                  ([CallPause] ++ during ++ [CallResume] ++ draining) in
  fileChanged Scenario.path ∉ snd result.
Proof.
  intros during draining result.
  apply (pause_holds_when_nothing_in_flight
           (Scenario.after Scenario.registered) Scenario.path
           (Scenario.watchAfter Scenario.registered)
           during draining (fst result)).
  - exists Scenario.registered, []. vm_compute. reflexivity.
  - vm_compute. reflexivity.
  - vm_compute. reflexivity.
  - repeat constructor.
  - repeat constructor.
  - intros H. apply list_elem_of_singleton in H. discriminate H.
  - vm_compute. reflexivity.
Defined.


Lemma burst_for_unchanged_file_notifies_nobody_witness :
  let s := Scenario.after Scenario.registered in
  run s (replicate 3 (OsFileChanged Scenario.path)
         ++ [TaskFinishes Scenario.path 0%nat; TaskCallback Scenario.path 0%nat])
  = Some (s, []).
Proof.
  intros s.
  apply (burst_for_unchanged_file_notifies_nobody
           s Scenario.path (Scenario.watchAfter Scenario.registered) 2).
  - vm_compute. reflexivity.
  - vm_compute. reflexivity.
  - vm_compute. reflexivity.
  - vm_compute. reflexivity.
Defined.

Lemma checksum_ignores_bytes_beyond_limit_witness :
  let w := start {[ Scenario.path := Scenario.fileX ]} Scenario.path 0 1 new in
  m_fileChecksum w
  = Sha256.digest (take (Z.to_nat (1 * 1024)) Scenario.fileX)
  ∧ calculateChecksum
      (<[Scenario.path := Scenario.fileY]> {[ Scenario.path := Scenario.fileX ]}) w
    = m_fileChecksum w
  ∧ hasSameFileChecksum
      (<[Scenario.path := Scenario.fileY]> {[ Scenario.path := Scenario.fileX ]}) w
    = true.
Proof.
  apply (checksum_ignores_bytes_beyond_limit
           {[ Scenario.path := Scenario.fileX ]} Scenario.path 0 1
           Scenario.fileX Scenario.fileY).
  - lia.
  - discriminate.
  - vm_compute. reflexivity.
  - vm_compute. reflexivity.
Defined.

Lemma checksum_of_whole_file_witness :
  m_fileChecksum (start {[ Scenario.path := Scenario.fileX ]}
                    Scenario.path 0 (-1) new)
  = Sha256.digest Scenario.fileX.
Proof.
  apply (checksum_of_whole_file
           {[ Scenario.path := Scenario.fileX ]} Scenario.path 0 (-1)
           Scenario.fileX).
  - lia.
  - discriminate.
  - vm_compute. reflexivity.
Defined.

(* ------------------------------------------------------------------ *)
(** ** Where notifications come from, and what pausing does to them *)
(* ------------------------------------------------------------------ *)

Import Frame.

Section Notifications.
Implicit Types (s : World) (w : FileWatcherPrivate).

Lemma run_emits events path : ∀ s s' out,
  consistent (watcher s) →
  run s events = Some (s', out) →
  fileChanged path ∈ out → ChangeDelayTimeout path ∈ events.
Proof.
  induction events as [|e events IH]; intros s s' out Hs; cbn [run].
  - intros [= _ <-] Hin. by apply elem_of_nil in Hin.
  - destruct (step s e) as [[s1 out1]|] eqn:Hstep; cbn; [|done].
    destruct (run s1 events) as [[s2 out2]|] eqn:Hrun; cbn; [|done].
    intros [= _ <-] [Hin|Hin]%elem_of_app.
    + destruct (step_emits s e s1 out1 path Hs Hstep Hin) as [-> _].
      by left.
    + right. eapply IH; [|exact Hrun|exact Hin].
      by eapply step_consistent.
Qed.

Lemma lookup_resume s path w :
  m_watches (watcher s) !! path = Some w →
  m_watches (Registry.resume (watcher s)) !! path = Some (resume w).
Proof. intros Hw. cbn. by rewrite lookup_fmap, Hw. Qed.

Lemma lookup_pause s path w :
  m_watches (watcher s) !! path = Some w →
  m_watches (Registry.pause (watcher s)) !! path = Some (pause w).
Proof. intros Hw. cbn. by rewrite lookup_fmap, Hw. Qed.

Lemma resume_ignore_window w :
  isActive (m_fileIgnoreDelayTimer (resume w)) = true
  ∧ isSingleShot (m_fileIgnoreDelayTimer (resume w))
    = isSingleShot (m_fileIgnoreDelayTimer w)
  ∧ m_ignoreFileChange (resume w) = false
  ∧ m_fileChangeDelayTimer (resume w) = m_fileChangeDelayTimer w
  ∧ m_filePath (resume w) = m_filePath w
  ∧ asyncTasks (resume w) = asyncTasks w.
Proof.
  unfold resume. cbn.
  by destruct (isActive (m_fileIgnoreDelayTimer w)) eqn:Hact.
Qed.

Lemma step_ignoreDelayTimeout s path w :
  m_watches (watcher s) !! path = Some w →
  isActive (m_fileIgnoreDelayTimer w) = true →
  step s (IgnoreDelayTimeout path)
  = Some (withWatch path (fileIgnoreDelayTimeout w) s, []).
Proof.
  intros Hw Hact. cbn. unfold watchWhen. rewrite Hw. cbn. by rewrite Hact.
Qed.

End Notifications.

(** X13. [fileChanged] for a path comes from the timeout of that path's
    debounce timer and from nowhere else: a run, from any reachable state,
    in which that timer does not fire emits no [fileChanged] for the path,
    whatever calls, OS events, other timeouts and callbacks it contains. *)
Theorem no_notification_without_debounce_timeout
    (s s' : World) (events : list Event) (out : list Signal) (path : string) :
  reachable s →
  ChangeDelayTimeout path ∉ events →
  run s events = Some (s', out) →
  fileChanged path ∉ out.
Proof.
  intros Hreach Hno Hrun Hin. apply Hno.
  eapply run_emits; [|exact Hrun|exact Hin].
  by apply reachable_consistent.
Qed.

Lemma no_notification_without_debounce_timeout_witness :
  let events := [OsFileChanged Scenario.path; CallPause; CallResume;
                 IgnoreDelayTimeout Scenario.path; OsFileChanged Scenario.path;
                 TaskFinishes Scenario.path 0%nat] in
  fileChanged Scenario.path
  ∉ snd (Sample.outcome (Scenario.after Sample.overwritten) events).
Proof.
  intros events.
  apply (no_notification_without_debounce_timeout
           (Scenario.after Sample.overwritten)
           (fst (Sample.outcome (Scenario.after Sample.overwritten) events))
           events).
  - exists Sample.overwritten, []. vm_compute. reflexivity.
  - intros H. repeat (apply elem_of_cons in H as [H|H]; [discriminate H|]).
    by apply elem_of_nil in H.
  - vm_compute. reflexivity.
Defined.

(** X14. [resume] opens an ignore window on every tracked path: until the
    ignore-window timer of the path has fired, any number of OS events for
    the path are dropped without a trace. The timer then fires, once, and
    the watch is left with the window closed and [m_ignoreFileChange]
    clear. *)
Theorem resume_opens_ignore_window
    (s : World) (path : string) (w : FileWatcherPrivate) (n : nat) :
  reachable s →
  m_watches (watcher s) !! path = Some w →
  ∃ s1 s2 w2,
    step s CallResume = Some (s1, [])
    ∧ run s1 (replicate n (OsFileChanged path)) = Some (s1, [])
    ∧ step s1 (IgnoreDelayTimeout path) = Some (s2, [])
    ∧ m_watches (watcher s2) !! path = Some w2
    ∧ isActive (m_fileIgnoreDelayTimer w2) = false
    ∧ m_ignoreFileChange w2 = false
    ∧ step s2 (IgnoreDelayTimeout path) = None.
Proof.
  intros Hreach Hw.
  destruct (reachable_consistent s Hreach path w Hw) as (_ & _ & Hshot & _).
  destruct (resume_ignore_window w) as (Hact & Hshot' & Hflag & _).
  set (s1 := {| disk := disk s; watcher := Registry.resume (watcher s) |}).
  assert (m_watches (watcher s1) !! path = Some (resume w)) as Hw1
    by by apply lookup_resume.
  set (w2 := fileIgnoreDelayTimeout (resume w)).
  assert (isActive (m_fileIgnoreDelayTimer w2) = false) as Hclosed.
  { unfold w2, fileIgnoreDelayTimeout, fired. cbn. by rewrite Hshot', Hshot. }
  exists s1, (withWatch path w2 s1), w2.
  split; [done|]. split.
  { apply (os_events_gated s1 path (resume w)); [done|].
    apply shouldIgnoreChanges_true. auto. }
  split; [by apply step_ignoreDelayTimeout|].
  split; [apply lookup_withWatch|]. split; [done|]. split; [done|].
  cbn [step]. unfold watchWhen. rewrite lookup_withWatch.
  cbn [mbind option_bind]. by rewrite Hclosed.
Qed.

Lemma resume_opens_ignore_window_witness :
  ∃ s1 s2 w2,
    step (Scenario.after Sample.overwritten) CallResume = Some (s1, [])
    ∧ run s1 (replicate 4 (OsFileChanged Scenario.path)) = Some (s1, [])
    ∧ step s1 (IgnoreDelayTimeout Scenario.path) = Some (s2, [])
    ∧ m_watches (watcher s2) !! Scenario.path = Some w2
    ∧ isActive (m_fileIgnoreDelayTimer w2) = false
    ∧ m_ignoreFileChange w2 = false
    ∧ step s2 (IgnoreDelayTimeout Scenario.path) = None.
Proof.
  apply (resume_opens_ignore_window
           (Scenario.after Sample.overwritten) Scenario.path
           (Scenario.watchAfter Sample.overwritten) 4).
  - exists Sample.overwritten, []. vm_compute. reflexivity.
  - vm_compute. reflexivity.
Defined.

(** X15. Paths do not interfere: an event addressed to another path, or a
    change of the file system, leaves the watch of a path exactly as it is
    (tracked or not) and emits no [fileChanged] for it. *)
Theorem other_paths_untouched
    (s s' : World) (e : Event) (out : list Signal) (path : string) :
  reachable s →
  ¬ concerns path e →
  step s e = Some (s', out) →
  m_watches (watcher s') !! path = m_watches (watcher s) !! path
  ∧ fileChanged path ∉ out.
Proof.
  intros Hreach Hother Hstep. split.
  - rewrite (step_onWatch s e s' out path Hstep).
    destruct e; cbn [onWatch concerns] in *; try done;
      by rewrite decide_False.
  - intros Hin.
    destruct (step_emits s e s' out path (reachable_consistent s Hreach)
                Hstep Hin) as [-> _].
    by apply Hother.
Qed.

Lemma other_paths_untouched_witness :
  let s := Scenario.after Scenario.debouncing in
  let result := Sample.outcome s [CallAddPath "/tmp/b.txt" 5 1] in
  m_watches (watcher (fst result)) !! Scenario.path
  = m_watches (watcher s) !! Scenario.path
  ∧ fileChanged Scenario.path ∉ snd result.
Proof.
  intros s result.
  apply (other_paths_untouched s (fst result) (CallAddPath "/tmp/b.txt" 5 1)).
  - exists Scenario.debouncing, []. vm_compute. reflexivity.
  - cbn. discriminate.
  - vm_compute. reflexivity.
Defined.

(* ------------------------------------------------------------------ *)
(** ** A watch whose stored checksum is that of its file *)
(* ------------------------------------------------------------------ *)

Section Settled.
Implicit Types (s : World) (w : FileWatcherPrivate) (fs : FileSystem).

Lemma settled_fields fs c w w' :
  settled fs c w →
  m_filePath w' = m_filePath w →
  m_fileChecksumSizeBytes w' = m_fileChecksumSizeBytes w →
  m_fileChecksum w' = m_fileChecksum w →
  isActive (m_fileChangeDelayTimer w') = false →
  tasksCarry c w' →
  settled fs c w'.
Proof.
  intros (Hcalc & Hsum & _ & _) Hpath Hsize Hsum' Hdelay Htasks.
  split; [|by rewrite Hsum'].
  unfold calculateChecksum in *. by rewrite Hpath, Hsize, Hsum'.
Qed.

(** The file system matters through the one file only; losing the file
    does no harm. *)
Lemma settled_disk fs fs' c w :
  settled fs c w →
  openReadOnly fs' (m_filePath w) = openReadOnly fs (m_filePath w)
  ∨ openReadOnly fs' (m_filePath w) = None →
  settled fs' c w.
Proof.
  intros (Hcalc & Hsum & Hrest) Hopen. split; [|done].
  unfold calculateChecksum in *. destruct Hopen as [->| ->]; done.
Qed.

Lemma settled_checkFileChanged fs c w :
  settled fs c w → settled fs c (checkFileChanged w).
Proof.
  intros Hw. destruct (shouldIgnoreChanges w) eqn:Hgate.
  - by rewrite checkFileChanged_gated.
  - rewrite checkFileChanged_passes by done.
    apply (settled_fields fs c w); try done; [apply Hw|].
    unfold tasksCarry. cbn. apply Forall_app. split; [apply Hw|].
    repeat constructor.
Qed.

(** Every event that leaves the file and the registration alone keeps the
    watch of the path settled. *)
Lemma onWatch_settled fs e path c watch :
  leavesFileAlone path e →
  from_option (settled fs c) True watch →
  from_option (settled fs c) True (onWatch fs e path watch).
Proof.
  intros Halone Hw.
  destruct e; cbn [onWatch leavesFileAlone] in *; try done;
    repeat case_decide; subst; try done;
    destruct watch as [w|]; cbn [fmap option_fmap option_map from_option] in *;
    try done.
  - (* pause *)
    apply (settled_fields fs c w); try done; apply Hw.
  - (* resume *)
    apply (settled_fields fs c w); [done|..]; unfold resume, tasksCarry; cbn;
      destruct (isActive (m_fileIgnoreDelayTimer w)); cbn; try done; apply Hw.
  - (* an event of the backend *)
    by apply settled_checkFileChanged.
  - (* the periodic check *)
    apply settled_checkFileChanged.
    apply (settled_fields fs c w); try done; apply Hw.
  - (* the debounce timer, which is not running *)
    apply (settled_fields fs c w); try done; try apply Hw.
    destruct Hw as (_ & _ & Hdelay & _). cbn. unfold fired.
    by destruct (isSingleShot (m_fileChangeDelayTimer w)).
  - (* a task finishes: with the checksum stored *)
    apply (settled_fields fs c w); try done; try apply Hw.
    unfold tasksCarry. cbn. apply Forall_insert; [apply Hw|].
    right. f_equal. apply Hw.
  - (* a callback: the checksums agree *)
    destruct (asyncTasks w !! task) as [[|c']|] eqn:Htask; [done| |done].
    destruct Hw as (Hcalc & Hsum & Hdelay & Htasks).
    assert (c' = c) as ->.
    { destruct (proj1 (Forall_lookup _ _) Htasks task _ Htask) as [?|?];
        congruence. }
    set (w1 := set_asyncTasks (delete task (asyncTasks w)) w).
    assert (checksumCallback c w1 = set_ignoreFileChange false w1) as ->.
    { rewrite <- Hsum. apply (checksumCallback_same w1). }
    apply (settled_fields fs c w); try done.
    unfold tasksCarry. cbn. by apply Forall_delete.
Qed.

Lemma step_disk s e s' out :
  step s e = Some (s', out) →
  disk s' = match e with
            | FileWritten p content => <[p := content]> (disk s)
            | FileRemoved p => delete p (disk s)
            | _ => disk s
            end.
Proof.
  destruct e; cbn [step]; unfold silently; try (by intros [= <- _]).
  - destruct (watchWhen _ path s); cbn; [|done]. by intros [= <- _].
  - destruct (watchWhen _ path s); cbn; [|done]. by intros [= <- _].
  - destruct (watchWhen _ path s); cbn; [|done]. by intros [= <- _].
  - destruct (m_watches (watcher s) !! path) as [w|]; cbn; [|done].
    destruct (asyncTasks w !! task) as [[|c]|]; [|done..].
    by intros [= <- _].
  - destruct (m_watches (watcher s) !! path) as [w|]; cbn; [|done].
    destruct (asyncTasks w !! task) as [[|c]|]; [done| |done].
    by intros [= <- _].
Qed.

Lemma openReadOnly_after s e s' out path :
  leavesFileAlone path e →
  step s e = Some (s', out) →
  openReadOnly (disk s') path = openReadOnly (disk s) path
  ∨ openReadOnly (disk s') path = None.
Proof.
  intros Halone Hstep. rewrite (step_disk s e s' out Hstep).
  unfold openReadOnly. destruct (decide (path = "")); [by left|].
  destruct e; cbn [leavesFileAlone] in Halone; try (by left).
  - left. by rewrite lookup_insert_ne.
  - destruct (decide (path0 = path)) as [->|Hne].
    + right. apply lookup_delete_eq.
    + left. by rewrite lookup_delete_ne.
Qed.

Lemma step_settled s e s' out path c :
  consistent (watcher s) →
  leavesFileAlone path e →
  from_option (settled (disk s) c) True (m_watches (watcher s) !! path) →
  step s e = Some (s', out) →
  (fileChanged path ∉ out)
  ∧ from_option (settled (disk s') c) True
      (m_watches (watcher s') !! path).
Proof.
  intros Hs Halone Hw Hstep. split.
  - intros Hin.
    destruct (step_emits s e s' out path Hs Hstep Hin) as (_ & w & Hlook & Hact).
    rewrite Hlook in Hw. cbn in Hw. destruct Hw as (_ & _ & Hoff & _).
    congruence.
  - pose proof (onWatch_settled (disk s) e path c _ Halone Hw) as Hnext.
    rewrite <- (step_onWatch s e s' out path Hstep) in Hnext.
    destruct (m_watches (watcher s') !! path) as [w'|] eqn:Hw'; [|done].
    cbn in *. apply (settled_disk (disk s)); [done|].
    assert (consistent (watcher s')) as Hs' by by eapply step_consistent.
    destruct (Hs' path w' Hw') as [-> _].
    by eapply openReadOnly_after.
Qed.

Lemma run_settled events path c : ∀ s s' out,
  consistent (watcher s) →
  Forall (leavesFileAlone path) events →
  from_option (settled (disk s) c) True (m_watches (watcher s) !! path) →
  run s events = Some (s', out) →
  (fileChanged path ∉ out)
  ∧ consistent (watcher s')
  ∧ from_option (settled (disk s') c) True
      (m_watches (watcher s') !! path).
Proof.
  induction events as [|e events IH]; intros s s' out Hs Hev Hw; cbn [run].
  - intros [= <- <-]. split; [by intros ?%elem_of_nil|done].
  - apply Forall_cons in Hev as [He Hev].
    destruct (step s e) as [[s1 out1]|] eqn:Hstep; cbn; [|done].
    destruct (run s1 events) as [[s2 out2]|] eqn:Hrun; cbn; [|done].
    intros [= <- <-].
    destruct (step_settled s e s1 out1 path c Hs He Hw Hstep) as [Hout1 Hw1].
    destruct (IH s1 s2 out2) as (Hout2 & Hs2 & Hw2);
      [by eapply step_consistent|done..|].
    split; [|done]. by intros [?|?]%elem_of_app.
Qed.

End Settled.

Section Unreported.
Implicit Types (s : World) (w : FileWatcherPrivate) (fs : FileSystem).

Lemma settled_pause fs w :
  calculateChecksum fs w = m_fileChecksum w →
  tasksCarry (m_fileChecksum w) w →
  settled fs (m_fileChecksum w) (pause w).
Proof. intros Hcalc Htasks. by repeat split. Qed.



End Unreported.




(** X16. [pause] discards a pending notification for good. Take a
    reachable state in which the debounce timer of a path is running (its
    timeout would emit [fileChanged]), the stored checksum is that of the
    file, and every outstanding task is still running or carries the
    stored checksum. After [pause], no run that neither writes the file
    nor registers the path again emits [fileChanged] for the path, whatever
    else it contains ([resume], events of the backend, timers,
    completions); the stored checksum stays what it was and the debounce
    timer stays stopped: the detected change is never reported. *)
Theorem pause_discards_pending_notification
    (s s' : World) (path : string) (w : FileWatcherPrivate)
    (events : list Event) (out : list Signal) :
  reachable s →
  m_watches (watcher s) !! path = Some w →
  isActive (m_fileChangeDelayTimer w) = true →
  calculateChecksum (disk s) w = m_fileChecksum w →
  tasksCarry (m_fileChecksum w) w →
  Forall (leavesFileAlone path) events →
  run s (CallPause :: events) = Some (s', out) →
  (∃ s0, step s (ChangeDelayTimeout path) = Some (s0, [fileChanged path]))
  ∧ (fileChanged path ∉ out)
  ∧ ∀ w', m_watches (watcher s') !! path = Some w' →
      m_fileChecksum w' = m_fileChecksum w
      ∧ isActive (m_fileChangeDelayTimer w') = false.
Proof.
  intros Hreach Hw Hact Hcalc Htasks Hev Hrun.
  pose proof (reachable_consistent s Hreach) as Hs.
  destruct (Hs path w Hw) as (Hkey & _).
  split.
  { eexists. rewrite (step_changeDelayTimeout s path w Hw Hact).
    by rewrite Hkey. }
  set (s1 := {| disk := disk s; watcher := Registry.pause (watcher s) |}).
  assert (step s CallPause = Some (s1, [])) as Hpause by done.
  cbn [run] in Hrun. rewrite Hpause in Hrun. cbn [mbind option_bind] in Hrun.
  destruct (run s1 events) as [[s2 out2]|] eqn:Hrun2; cbn in Hrun; [|done].
  injection Hrun as <- <-.
  destruct (run_settled events path (m_fileChecksum w) s1 s2 out2)
    as (Hout & _ & Hw'); [by eapply step_consistent|done| |done|].
  { unfold s1. cbn [watcher disk]. rewrite (lookup_pause _ _ _ Hw).
    by apply settled_pause. }
  split; [done|]. intros w' Hlook. rewrite Hlook in Hw'.
  by destruct Hw' as (_ & Hsum' & Hdelay' & _).
Qed.

Lemma pause_discards_pending_notification_witness :
  let s := Scenario.after Scenario.debouncing in
  let events :=
    [CallResume; IgnoreDelayTimeout Scenario.path;
     OsFileChanged Scenario.path; OsFileChanged Scenario.path;
     TaskFinishes Scenario.path 0%nat; TaskCallback Scenario.path 0%nat;
     FileRemoved Scenario.path; OsFileChanged Scenario.path;
     TaskFinishes Scenario.path 0%nat; TaskCallback Scenario.path 0%nat] in
  (∃ s0, step s (ChangeDelayTimeout Scenario.path)
         = Some (s0, [fileChanged Scenario.path]))
  ∧ (fileChanged Scenario.path
     ∉ (Sample.outcome s (CallPause :: events)).2)
  ∧ ∀ w', m_watches (watcher (Sample.outcome s (CallPause :: events)).1)
          !! Scenario.path = Some w' →
      m_fileChecksum w'
      = m_fileChecksum (Scenario.watchAfter Scenario.debouncing)
      ∧ isActive (m_fileChangeDelayTimer w') = false.
Proof.
  intros s events.
  apply (pause_discards_pending_notification
           s (Sample.outcome s (CallPause :: events)).1 Scenario.path
           (Scenario.watchAfter Scenario.debouncing) events
           (Sample.outcome s (CallPause :: events)).2).
  - exists Scenario.debouncing, []. vm_compute. reflexivity.
  - vm_compute. reflexivity.
  - vm_compute. reflexivity.
  - vm_compute. reflexivity.
  - vm_compute. constructor.
  - repeat constructor.
  - vm_compute. reflexivity.
Defined.

(* ================================================================== *)
(** * The attachments of an entry *)
(* ================================================================== *)

Section AttachmentFacts.
Implicit Types (a : Attachments.EntryAttachments) (key : string)
  (data : list byte).

Lemma hasKey_true key a :
  Attachments.hasKey key a = true
  ↔ is_Some (Attachments.m_attachments a !! key).
Proof. unfold Attachments.hasKey. apply bool_decide_eq_true. Qed.

Lemma hasKey_false key a :
  Attachments.hasKey key a = false
  ↔ Attachments.m_attachments a !! key = None.
Proof.
  unfold Attachments.hasKey. rewrite bool_decide_eq_false.
  symmetry. apply eq_None_not_Some.
Qed.

Lemma set_attachments_same a :
  Attachments.set_attachments (Attachments.m_attachments a) a = a.
Proof. by destruct a. Qed.

(** The map [set] leaves behind, whichever branch it took. *)
Lemma set_map key data a :
  Attachments.m_attachments (fst (Attachments.set key data a))
  = <[key := data]> (Attachments.m_attachments a).
Proof.
  unfold Attachments.set. cbn.
  destruct (Attachments.hasKey key a) eqn:Hkey; cbn; [|done].
  case_bool_decide as Hval; cbn; [done|].
  apply hasKey_true in Hkey as [old Hold].
  symmetry. apply insert_id. unfold Attachments.value in Hval.
  rewrite Hold in Hval |- *. cbn in Hval. f_equal.
  by destruct (decide (old = data)).
Qed.

Lemma set_watcher key data a :
  Attachments.m_attachmentFileWatcher (fst (Attachments.set key data a))
  = Attachments.m_attachmentFileWatcher a.
Proof. unfold Attachments.set. cbn. by repeat case_match. Qed.

Lemma set_hasKey key data a :
  Attachments.hasKey key (fst (Attachments.set key data a)) = true.
Proof. apply hasKey_true. rewrite set_map, lookup_insert_eq. eauto. Qed.

Lemma attachments_eq a a' :
  Attachments.m_attachments a = Attachments.m_attachments a' →
  Attachments.m_attachmentFileWatcher a
  = Attachments.m_attachmentFileWatcher a' →
  a = a'.
Proof. destruct a, a'. cbn. by intros -> ->. Qed.

End AttachmentFacts.

(** X17. [set] then [value]: after [set(key, data)] the key is present and
    [value(key)] is [data]; the other attachments and the list of opened
    temporary files are what they were. *)
Theorem set_then_value
    (key : string) (data : list byte) (a : Attachments.EntryAttachments) :
  let a' := fst (Attachments.set key data a) in
  Attachments.value key a' = data
  ∧ Attachments.hasKey key a' = true
  ∧ (∀ other, other ≠ key →
       Attachments.m_attachments a' !! other
       = Attachments.m_attachments a !! other)
  ∧ Attachments.m_attachmentFileWatcher a'
    = Attachments.m_attachmentFileWatcher a.
Proof.
  intros a'. subst a'. split; [|split; [|split]].
  - unfold Attachments.value. by rewrite set_map, lookup_insert_eq.
  - apply set_hasKey.
  - intros other Hother. by rewrite set_map, lookup_insert_ne.
  - apply set_watcher.
Qed.

(** X18. [set] calls [emitModified()] exactly when it changes the
    attachments: setting a key to the data it already has changes nothing
    and only emits [keyModified]. *)
Theorem set_signals_modification_iff_changed
    (key : string) (data : list byte) (a : Attachments.EntryAttachments) :
  let result := Attachments.set key data a in
  (Attachments.emitModified ∈ snd result ↔ fst result ≠ a)
  ∧ (Attachments.m_attachments a !! key = Some data →
     result = (a, [Attachments.keyModified key])).
Proof.
  intros result. subst result. unfold Attachments.set. cbn. split.
  - destruct (Attachments.hasKey key a) eqn:Hkey; cbn.
    + case_bool_decide as Hval; cbn.
      * split; [intros _|intros _; set_solver].
        intros Heq. apply Hval. rewrite <- Heq at 1.
        unfold Attachments.value. cbn. by rewrite lookup_insert_eq.
      * split; [|done]. intros Hin.
        apply elem_of_cons in Hin as [Hin|Hin]; [discriminate|].
        by apply elem_of_nil in Hin.
    + split; [intros _|intros _; set_solver].
      apply hasKey_false in Hkey. intros Heq.
      rewrite <- Heq in Hkey. cbn in Hkey. by rewrite lookup_insert_eq in Hkey.
  - intros Hsame.
    assert (Attachments.hasKey key a = true) as ->
      by (apply hasKey_true; eauto).
    cbn. rewrite bool_decide_eq_false_2; [done|].
    unfold Attachments.value. rewrite Hsame. by intros [].
Qed.

(** X19. [remove] undoes [set]: adding an attachment under a key that was
    not there and removing it again gives back the attachments as they
    were, in a debug as in a release build. *)
Theorem remove_undoes_set
    (debugBuild : bool) (key : string) (data : list byte)
    (a : Attachments.EntryAttachments) :
  Attachments.hasKey key a = false →
  Attachments.remove debugBuild key (fst (Attachments.set key data a))
  = Some (a, [Attachments.aboutToBeRemoved key; Attachments.removed key;
              Attachments.emitModified]).
Proof.
  intros Hnew. unfold Attachments.remove.
  assert (Attachments.hasKey key (fst (Attachments.set key data a)) = true)
    as -> by apply set_hasKey.
  cbn [negb]. do 2 f_equal. unfold Attachments.set_attachments.
  apply attachments_eq;
    cbn [Attachments.m_attachments Attachments.m_attachmentFileWatcher].
  - rewrite set_map. apply delete_insert_id. by apply hasKey_false.
  - apply set_watcher.
Qed.

Lemma remove_undoes_set_witness :
  Attachments.remove true "c.txt"
    (fst (Attachments.set "c.txt" Scenario.contentA AttachmentSample.two))
  = Some (AttachmentSample.two,
          [Attachments.aboutToBeRemoved "c.txt"; Attachments.removed "c.txt";
           Attachments.emitModified]).
Proof.
  apply (remove_undoes_set true "c.txt" Scenario.contentA AttachmentSample.two).
  vm_compute. reflexivity.
Defined.

Section RemoveKeys.
Implicit Types (a : Attachments.EntryAttachments) (keys : list string).

(** The loop in a release build: it never stops early; every listed key
    is gone, the others stay; [isModified] is raised when a key was found;
    [emitModified] is not among the signals of the loop. *)
Lemma removeEach_release keys : ∀ a out isModified,
  ∃ a' out' isModified',
    Attachments.removeEach false keys (a, out, isModified)
    = Some (a', out ++ out', isModified')
    ∧ (∀ key, Attachments.m_attachments a' !! key
              = if decide (key ∈ keys) then None
                else Attachments.m_attachments a !! key)
    ∧ Attachments.m_attachmentFileWatcher a'
      = Attachments.m_attachmentFileWatcher a
    ∧ (Attachments.emitModified ∉ out')
    ∧ (isModified' = true
       ↔ isModified = true
         ∨ ∃ key, key ∈ keys ∧ is_Some (Attachments.m_attachments a !! key)).
Proof.
  induction keys as [|k keys IH]; intros a out isModified.
  - exists a, [], isModified. cbn. rewrite app_nil_r.
    split; [done|]. split; [|split; [done|split]].
    + intros key. rewrite decide_False; [done|]. by intros ?%elem_of_nil.
    + by intros ?%elem_of_nil.
    + split; [by left|]. intros [H|(key & Hin & _)]; [done|].
      by apply elem_of_nil in Hin.
  - cbn [Attachments.removeEach].
    destruct (Attachments.hasKey k a) eqn:Hk; cbn [negb].
    + destruct (IH (Attachments.set_attachments
                      (delete k (Attachments.m_attachments a)) a)
                   (out ++ [Attachments.aboutToBeRemoved k;
                            Attachments.removed k]) true)
        as (a' & out' & b' & Hrun & Hmap & Hwatch & Hout & Hmod).
      exists a', ([Attachments.aboutToBeRemoved k; Attachments.removed k]
                  ++ out'), b'.
      rewrite app_assoc. split; [exact Hrun|].
      split; [|split; [exact Hwatch|split]].
      * intros key. rewrite Hmap. cbn. rewrite lookup_delete.
        repeat case_decide; set_solver.
      * intros [Hin|Hin]%elem_of_app; [|done].
        repeat (apply elem_of_cons in Hin as [Hin|Hin]; [discriminate|]).
        by apply elem_of_nil in Hin.
      * apply hasKey_true in Hk. split; [|intros _; apply Hmod; by left].
        intros _. right. exists k. split; [by left | done].
    + cbn. destruct (IH a out isModified)
        as (a' & out' & b' & Hrun & Hmap & Hwatch & Hout & Hmod).
      exists a', out', b'. split; [exact Hrun|].
      apply hasKey_false in Hk.
      split; [|split; [exact Hwatch|split; [exact Hout|]]].
      * intros key. rewrite Hmap. repeat case_decide; set_solver.
      * rewrite Hmod. split; intros [H|(key & Hin & Hsome)]; auto.
        -- right. exists key. split; [by right | done].
        -- apply elem_of_cons in Hin as [->|Hin].
           ++ rewrite Hk in Hsome. by destruct Hsome.
           ++ right. eauto.
Qed.

(** The loop in a debug build gets through exactly when the keys are all
    there and no key is listed twice. *)
Lemma removeEach_debug keys : ∀ a out isModified,
  is_Some (Attachments.removeEach true keys (a, out, isModified))
  ↔ NoDup keys
    ∧ ∀ key, key ∈ keys → is_Some (Attachments.m_attachments a !! key).
Proof.
  induction keys as [|k keys IH]; intros a out isModified.
  - cbn. split; [intros _|by eauto]. split; [constructor|].
    by intros key ?%elem_of_nil.
  - cbn [Attachments.removeEach].
    destruct (Attachments.hasKey k a) eqn:Hk; cbn [negb].
    + rewrite IH. cbn. apply hasKey_true in Hk. rewrite NoDup_cons.
      split.
      * intros [Hnodup Hall]. split; [split; [|done]|].
        -- intros Hin. destruct (Hall k Hin) as [x Hx].
           by rewrite lookup_delete_eq in Hx.
        -- intros key [->|Hin]%elem_of_cons; [done|].
           destruct (Hall key Hin) as [x Hx].
           apply lookup_delete_Some in Hx as [_ Hx]. eauto.
      * intros [[Hnotin Hnodup] Hall]. split; [done|].
        intros key Hin. rewrite lookup_delete_ne by set_solver.
        apply Hall. by right.
    + cbn. apply hasKey_false in Hk. split; [by intros [? ?]|].
      intros [_ Hall]. destruct (Hall k) as [x Hx]; [by left|congruence].
Qed.

End RemoveKeys.

(** X20. [remove] of a list of keys, in a release build: every listed key
    is gone afterwards, every other attachment is untouched, and
    [emitModified()] is called once, at the end, exactly when at least one
    of the keys was there; keys that are missing or listed twice are
    skipped. *)
Theorem removeKeys_release
    (keys : list string) (a : Attachments.EntryAttachments) :
  ∃ a' out,
    Attachments.removeKeys false keys a
    = Some (a', out ++ if existsb (λ key, Attachments.hasKey key a) keys
                       then [Attachments.emitModified] else [])
    ∧ (Attachments.emitModified ∉ out)
    ∧ (∀ key, Attachments.m_attachments a' !! key
              = if decide (key ∈ keys) then None
                else Attachments.m_attachments a !! key)
    ∧ Attachments.m_attachmentFileWatcher a'
      = Attachments.m_attachmentFileWatcher a.
Proof.
  destruct keys as [|k keys].
  - exists a, []. cbn.
    split; [done|]. split; [by intros ?%elem_of_nil|]. split; [|done].
    intros key. rewrite decide_False; [done|]. by intros ?%elem_of_nil.
  - destruct (removeEach_release (k :: keys) a [] false)
      as (a' & out' & b' & Hrun & Hmap & Hwatch & Hout & Hmod).
    exists a', out'. unfold Attachments.removeKeys. rewrite Hrun.
    cbn [mbind option_bind app].
    split; [|by split].
    do 3 f_equal.
    destruct (existsb _ (k :: keys)) eqn:Hany.
    + apply existsb_exists in Hany as (key & Hin & Hkey).
      apply list_elem_of_In in Hin. apply hasKey_true in Hkey.
      rewrite (proj2 Hmod); [done|]. right. eauto.
    + destruct b'; [|done].
      destruct (proj1 Hmod eq_refl) as [?|(key & Hin & Hkey)]; [done|].
      apply list_elem_of_In in Hin. apply hasKey_true in Hkey.
      assert (existsb (λ key, Attachments.hasKey key a) (k :: keys) = true)
        by (apply existsb_exists; eauto).
      congruence.
Qed.

(** X21. [remove] of a list of keys, in a debug build, gets through
    without a failed assertion exactly when the list is empty or all its
    keys are there and none is listed twice. *)
Theorem removeKeys_debug
    (keys : list string) (a : Attachments.EntryAttachments) :
  is_Some (Attachments.removeKeys true keys a)
  ↔ NoDup keys
    ∧ ∀ key, key ∈ keys → is_Some (Attachments.m_attachments a !! key).
Proof.
  destruct keys as [|k keys].
  - cbn. split; [intros _|by eauto]. split; [constructor|].
    by intros key ?%elem_of_nil.
  - rewrite <- (removeEach_debug (k :: keys) a [] false).
    unfold Attachments.removeKeys.
    destruct (Attachments.removeEach true (k :: keys) (a, [], false))
      as [[[a' out] b]|]; cbn; split; intros [x Hx]; by eauto.
Qed.

Section Rename.
Implicit Types (a : Attachments.EntryAttachments) (key newKey : string).

Lemma remove_present debugBuild key a :
  Attachments.hasKey key a = true →
  Attachments.remove debugBuild key a
  = Some (Attachments.set_attachments
            (delete key (Attachments.m_attachments a)) a,
          [Attachments.aboutToBeRemoved key; Attachments.removed key;
           Attachments.emitModified]).
Proof. intros Hkey. unfold Attachments.remove. by rewrite Hkey. Qed.

Lemma remove_missing debugBuild key a :
  Attachments.hasKey key a = false →
  Attachments.remove debugBuild key a
  = if debugBuild then None else Some (a, []).
Proof. intros Hkey. unfold Attachments.remove. by rewrite Hkey. Qed.

End Rename.

(** X22. [rename(key, newKey)] of an attachment that is there, to another
    name: the data moves to [newKey], replacing what was stored there;
    [key] is gone; every other attachment stays. *)
Theorem rename_moves_the_data
    (debugBuild : bool) (key newKey : string)
    (a : Attachments.EntryAttachments) :
  Attachments.hasKey key a = true →
  key ≠ newKey →
  ∃ a' out,
    Attachments.rename debugBuild key newKey a = Some (a', out)
    ∧ Attachments.m_attachments a'
      = <[newKey := Attachments.value key a]>
          (delete key (Attachments.m_attachments a))
    ∧ Attachments.value newKey a' = Attachments.value key a
    ∧ Attachments.hasKey key a' = false
    ∧ Attachments.m_attachmentFileWatcher a'
      = Attachments.m_attachmentFileWatcher a.
Proof.
  intros Hkey Hne. unfold Attachments.rename.
  rewrite remove_present by done. cbn [mbind option_bind].
  set (a1 := Attachments.set_attachments _ a).
  destruct (Attachments.set newKey (Attachments.value key a) a1)
    as [a2 out2] eqn:Hset.
  assert (a2 = fst (Attachments.set newKey (Attachments.value key a) a1))
    as Ha2 by by rewrite Hset.
  exists a2, ([Attachments.aboutToBeRemoved key; Attachments.removed key;
               Attachments.emitModified] ++ out2).
  assert (Attachments.m_attachments a2
          = <[newKey := Attachments.value key a]>
              (delete key (Attachments.m_attachments a))) as Hmap.
  { rewrite Ha2. apply set_map. }
  split; [done|]. split; [exact Hmap|]. split; [|split].
  - unfold Attachments.value at 1. by rewrite Hmap, lookup_insert_eq.
  - apply hasKey_false.
    by rewrite Hmap, lookup_insert_ne, lookup_delete_eq.
  - by rewrite Ha2, set_watcher.
Qed.

Lemma rename_moves_the_data_witness :
  ∃ a' out,
    Attachments.rename true "a.txt" "b.txt" AttachmentSample.two
    = Some (a', out)
    ∧ Attachments.m_attachments a'
      = <["b.txt" := Attachments.value "a.txt" AttachmentSample.two]>
          (delete "a.txt" (Attachments.m_attachments AttachmentSample.two))
    ∧ Attachments.value "b.txt" a'
      = Attachments.value "a.txt" AttachmentSample.two
    ∧ Attachments.hasKey "a.txt" a' = false
    ∧ Attachments.m_attachmentFileWatcher a'
      = Attachments.m_attachmentFileWatcher AttachmentSample.two.
Proof.
  apply (rename_moves_the_data true "a.txt" "b.txt" AttachmentSample.two).
  - vm_compute. reflexivity.
  - discriminate.
Defined.

(** X23. [rename] of an attachment that is not there: a debug build stops
    at the assertion of [remove]; a release build goes on and stores empty
    data under [newKey], replacing whatever was stored there. *)
Theorem rename_of_missing_key
    (key newKey : string) (a : Attachments.EntryAttachments) :
  Attachments.hasKey key a = false →
  Attachments.rename true key newKey a = None
  ∧ ∃ a' out,
      Attachments.rename false key newKey a = Some (a', out)
      ∧ Attachments.m_attachments a'
        = <[newKey := []]> (Attachments.m_attachments a)
      ∧ Attachments.value newKey a' = [].
Proof.
  intros Hkey. unfold Attachments.rename.
  rewrite !remove_missing by done. split; [done|]. cbn [mbind option_bind].
  assert (Attachments.value key a = []) as ->.
  { unfold Attachments.value. apply hasKey_false in Hkey. by rewrite Hkey. }
  destruct (Attachments.set newKey [] a) as [a2 out2] eqn:Hset.
  assert (a2 = fst (Attachments.set newKey [] a)) as Ha2 by by rewrite Hset.
  exists a2, ([] ++ out2).
  assert (Attachments.m_attachments a2
          = <[newKey := []]> (Attachments.m_attachments a)) as Hmap.
  { rewrite Ha2. apply set_map. }
  split; [done|]. split; [exact Hmap|].
  unfold Attachments.value. by rewrite Hmap, lookup_insert_eq.
Qed.

Lemma rename_of_missing_key_witness :
  Attachments.rename true "c.txt" "a.txt" AttachmentSample.two = None
  ∧ ∃ a' out,
      Attachments.rename false "c.txt" "a.txt" AttachmentSample.two
      = Some (a', out)
      ∧ Attachments.m_attachments a'
        = <["a.txt" := []]> (Attachments.m_attachments AttachmentSample.two)
      ∧ Attachments.value "a.txt" a' = [].
Proof.
  apply (rename_of_missing_key "c.txt" "a.txt" AttachmentSample.two).
  vm_compute. reflexivity.
Defined.

(** X24. [rename] of an attachment to its own name leaves the attachments
    exactly as they are, but reports a removal and an addition, with
    [emitModified()] called twice. *)
Theorem rename_to_itself
    (debugBuild : bool) (key : string) (a : Attachments.EntryAttachments) :
  Attachments.hasKey key a = true →
  Attachments.rename debugBuild key key a
  = Some (a, [Attachments.aboutToBeRemoved key; Attachments.removed key;
              Attachments.emitModified;
              Attachments.aboutToBeAdded key; Attachments.added key;
              Attachments.emitModified]).
Proof.
  intros Hkey. unfold Attachments.rename.
  rewrite remove_present by done. cbn [mbind option_bind].
  set (a1 := Attachments.set_attachments _ a).
  assert (Attachments.hasKey key a1 = false) as Hgone.
  { apply hasKey_false. cbn. apply lookup_delete_eq. }
  unfold Attachments.set. rewrite Hgone. cbn.
  do 2 f_equal. apply attachments_eq; cbn; [|done].
  rewrite insert_delete_eq. apply insert_id.
  apply hasKey_true in Hkey as [data Hdata].
  unfold Attachments.value. by rewrite Hdata.
Qed.

Lemma rename_to_itself_witness :
  Attachments.rename true "a.txt" "a.txt" AttachmentSample.two
  = Some (AttachmentSample.two,
          [Attachments.aboutToBeRemoved "a.txt"; Attachments.removed "a.txt";
           Attachments.emitModified;
           Attachments.aboutToBeAdded "a.txt"; Attachments.added "a.txt";
           Attachments.emitModified]).
Proof.
  apply (rename_to_itself true "a.txt" AttachmentSample.two).
  vm_compute. reflexivity.
Defined.

Section Wipe.
Implicit Types (entropy : nat → byte) (content : list byte).

Lemma length_randomArray entropy size drawn :
  length (Attachments.randomArray entropy size drawn) = size.
Proof. unfold Attachments.randomArray. by rewrite length_fmap, length_seq. Qed.

Lemma randomArray_app entropy n m drawn :
  Attachments.randomArray entropy (n + m) drawn
  = Attachments.randomArray entropy n drawn
    ++ Attachments.randomArray entropy m (drawn + n).
Proof. unfold Attachments.randomArray. by rewrite seq_app, fmap_app. Qed.

(** The loop invariant: what was written so far is random, what lies
    behind the write position is still the old content. *)
Lemma writeRandom_spec entropy count : ∀ (written rest : list byte) drawn,
  Attachments.writeRandom entropy count (length written) drawn (written ++ rest)
  = written ++ Attachments.randomArray entropy (128 * count) drawn
    ++ drop (128 * count) rest.
Proof.
  induction count as [|count IH]; intros written rest drawn.
  - rewrite Nat.mul_0_r. by cbn.
  - cbn [Attachments.writeRandom]. unfold Attachments.writeAt.
    rewrite length_randomArray, take_app_length.
    rewrite drop_app_add.
    set (chunk := Attachments.randomArray entropy 128 drawn).
    replace (length written + 128)%nat with (length (written ++ chunk))
      by (rewrite length_app; unfold chunk; by rewrite length_randomArray).
    rewrite (app_assoc written chunk), IH, <- app_assoc.
    f_equal. rewrite drop_drop.
    replace (128 * S count)%nat with (128 + 128 * count)%nat by lia.
    rewrite randomArray_app. unfold chunk. by rewrite <- app_assoc.
Qed.

Lemma wipeRounds_cover content :
  (length content < 128 * Attachments.wipeRounds content)%nat.
Proof.
  unfold Attachments.wipeRounds.
  pose proof (Z.mod_pos_bound (Z.of_nat (length content)) 128 ltac:(lia)).
  pose proof (Z.div_mod (Z.of_nat (length content)) 128 ltac:(lia)).
  assert (0 ≤ Z.of_nat (length content) / 128)
    by (apply Z.div_pos; lia).
  lia.
Qed.

End Wipe.

(** X25. The overwriting loop of [clear] leaves no byte of the file as it
    was: when the loop is done, the opened file consists of
    [128 * (size / 128 + 1)] random bytes, which is more than its size, so
    what is on disk depends on the length of the old content only. *)
Theorem overwrite_leaves_no_original_byte
    (entropy : nat → byte) (drawn : nat) (content : list byte) :
  Attachments.overwrite entropy drawn content
  = Attachments.randomArray entropy (128 * Attachments.wipeRounds content) drawn
  ∧ (length content < length (Attachments.overwrite entropy drawn content))%nat
  ∧ ∀ content', length content' = length content →
      Attachments.overwrite entropy drawn content'
      = Attachments.overwrite entropy drawn content.
Proof.
  assert (∀ c, Attachments.overwrite entropy drawn c
               = Attachments.randomArray entropy
                   (128 * Attachments.wipeRounds c) drawn) as Hall.
  { intros c. unfold Attachments.overwrite.
    rewrite (writeRandom_spec entropy _ [] c drawn). cbn [app].
    rewrite drop_ge, app_nil_r; [done|].
    pose proof (wipeRounds_cover c). lia. }
  split; [apply Hall|]. split.
  - rewrite Hall, length_randomArray. apply wipeRounds_cover.
  - intros content' Hlen. rewrite !Hall.
    unfold Attachments.wipeRounds. by rewrite Hlen.
Qed.

Section Clear.
Implicit Types (entropy : nat → byte) (a : Attachments.EntryAttachments)
  (env : Attachments.Env).



End Clear.




(** X27. [clear] does nothing at all when there is no attachment, also
    when temporary files are still open: after the only attachment was
    removed, [clear] neither overwrites nor removes the file that was
    exported for it, and goes on watching it. *)
Theorem clear_after_last_removal_keeps_the_files
    (entropy : nat → byte) (debugBuild : bool) (key : string)
    (data : list byte) (a : Attachments.EntryAttachments)
    (env : Attachments.Env) :
  Attachments.m_attachments a = {[ key := data ]} →
  ∃ a1 out,
    Attachments.remove debugBuild key a = Some (a1, out)
    ∧ Attachments.clear entropy a1 env = (a1, env, [])
    ∧ Attachments.m_attachmentFileWatcher a1
      = Attachments.m_attachmentFileWatcher a.
Proof.
  intros Hone.
  assert (Attachments.hasKey key a = true) as Hkey.
  { apply hasKey_true. rewrite Hone, lookup_singleton_eq. eauto. }
  rewrite remove_present by done. eexists _, _. split; [reflexivity|].
  split; [|done]. unfold Attachments.clear, Attachments.isEmpty.
  rewrite bool_decide_eq_true_2; [done|].
  cbn. rewrite Hone. apply delete_singleton_eq.
Qed.

Lemma clear_after_last_removal_keeps_the_files_witness :
  ∃ a1 out,
    Attachments.remove true "a.txt" AttachmentSample.opened = Some (a1, out)
    ∧ Attachments.clear AttachmentSample.counting a1 AttachmentSample.tempDir
      = (a1, AttachmentSample.tempDir, [])
    ∧ Attachments.m_attachmentFileWatcher a1
      = Attachments.m_attachmentFileWatcher AttachmentSample.opened.
Proof.
  apply (clear_after_last_removal_keeps_the_files AttachmentSample.counting
           true "a.txt" Scenario.contentA AttachmentSample.opened
           AttachmentSample.tempDir).
  reflexivity.
Defined.

(** X28. [copyDataFrom]: afterwards the attachments equal those of the
    other object under [operator==], the watched files are the receiver's
    own, and the reset is reported exactly when something had to be
    copied; copying a second time changes and reports nothing. *)
Theorem copyDataFrom_makes_equal
    (other a : Attachments.EntryAttachments) :
  let result := Attachments.copyDataFrom other a in
  Attachments.equal (fst result) other = true
  ∧ Attachments.m_attachmentFileWatcher (fst result)
    = Attachments.m_attachmentFileWatcher a
  ∧ snd result
    = (if Attachments.equal a other then []
       else [Attachments.aboutToBeReset; Attachments.reset;
             Attachments.emitModified])
  ∧ (Attachments.equal a other = true → fst result = a)
  ∧ Attachments.copyDataFrom other (fst result) = (fst result, []).
Proof.
  intros result. subst result. unfold Attachments.copyDataFrom,
    Attachments.differ, Attachments.equal.
  destruct (decide (Attachments.m_attachments a
                    = Attachments.m_attachments other)) as [Heq|Hne].
  - rewrite (bool_decide_eq_false_2 (_ ≠ _)) by (by intros []).
    rewrite (bool_decide_eq_true_2 _ Heq). cbn.
    rewrite (bool_decide_eq_true_2 _ Heq).
    rewrite (bool_decide_eq_false_2 (_ ≠ _)) by (by intros []). done.
  - rewrite (bool_decide_eq_true_2 (_ ≠ _)) by done.
    rewrite (bool_decide_eq_false_2 _ Hne). cbn.
    rewrite (bool_decide_eq_true_2 (_ = _)) by done.
    rewrite (bool_decide_eq_false_2 (_ ≠ _)) by (by intros []).
    repeat split. intros [=].
Qed.

Section Size.

Lemma wrap32_add_l a b : wrap32 (wrap32 a + b) = wrap32 (a + b).
Proof.
  unfold wrap32. f_equal.
  replace ((a + 2 ^ 31) mod 2 ^ 32 - 2 ^ 31 + b + 2 ^ 31)
    with ((a + 2 ^ 31) mod 2 ^ 32 + b) by lia.
  rewrite Zplus_mod_idemp_l. f_equal. lia.
Qed.

Lemma wrap32_add_r a b : wrap32 (a + wrap32 b) = wrap32 (a + b).
Proof. by rewrite (Z.add_comm a), wrap32_add_l, (Z.add_comm b). Qed.

End Size.

(** X29. [attachmentsSize] grows, as an [int], by the length of the name
    plus the length of the data when an attachment is added under a new
    name. *)
Theorem attachmentsSize_of_added_attachment
    (key : string) (data : list byte) (a : Attachments.EntryAttachments) :
  Attachments.hasKey key a = false →
  Attachments.attachmentsSize (fst (Attachments.set key data a))
  = wrap32 (Attachments.attachmentsSize a
            + Z.of_nat (String.length key) + Z.of_nat (length data)).
Proof.
  intros Hnew. unfold Attachments.attachmentsSize. rewrite set_map.
  rewrite map_fold_insert_L.
  - rewrite wrap32_add_r. f_equal. lia.
  - intros j1 j2 z1 z2 y _ _ _.
    rewrite !wrap32_add_r, !wrap32_add_l. f_equal. lia.
  - by apply hasKey_false.
Qed.

Lemma attachmentsSize_of_added_attachment_witness :
  Attachments.attachmentsSize
    (fst (Attachments.set "c.txt" Scenario.fileX AttachmentSample.two))
  = wrap32 (Attachments.attachmentsSize AttachmentSample.two
            + Z.of_nat (String.length "c.txt")
            + Z.of_nat (length Scenario.fileX)).
Proof.
  apply (attachmentsSize_of_added_attachment "c.txt" Scenario.fileX
           AttachmentSample.two).
  vm_compute. reflexivity.
Defined.
